(** * analyze_simulation.py: air-bone gap analysis, simulation against clinic

    A shallow embedding of the computational core of [analyze_simulation.py]:
    the patient record parser ([load_all_patient_abg], [load_patient_by_group]),
    the grade-wise statistics ([sim_means], [sim_stds]) and the best-position
    search ([best_positions]).

    Python [float] values are IEEE 754 binary64 numbers; they are modelled by
    Rocq's primitive [float], so that NaN, the infinities and rounding behave
    as they do in the script. *)

From Stdlib Require Import Ascii String.
From Stdlib Require Import ZArith List Bool Lia Sorted.
From Stdlib Require Import Floats.
Import ListNotations.

Open Scope float_scope.

(* Decimal constants of the script are read as the nearest binary64 value,
   as Python reads them. *)
#[local] Set Warnings "-inexact-float".

(** ** Binary64 facts used by the development *)

Module F64.

Definition nat_to_float (n : nat) : float :=
  of_uint63 (Uint63.of_Z (Z.of_nat n)).

Lemma Prim2SF_nan_iff (x : float) : Prim2SF x = S754_nan <-> is_nan x = true.
Proof.
  split.
  - intro H. destruct (is_nan x) eqn:E; [reflexivity|].
    unfold Prim2SF in H. rewrite E in H.
    destruct (is_zero x); [discriminate|].
    destruct (is_infinity x); [discriminate|].
    destruct (Z.frexp x) as [r ex].
    destruct (shr_fexp prec emax _ _ _) as [sh e'].
    destruct (shr_m sh); discriminate.
  - intro H. unfold Prim2SF. now rewrite H.
Qed.

Lemma is_nan_false_SF (x : float) : is_nan x = false <-> Prim2SF x <> S754_nan.
Proof.
  rewrite Prim2SF_nan_iff. destruct (is_nan x); split; congruence.
Qed.

(** *** The order of [SFcompare] *)

Lemma compare_cont_Eq (a b : positive) :
  Pos.compare_cont Eq a b = (a ?= b)%positive.
Proof. reflexivity. Qed.

Lemma lex_pos (ea eb ec : Z) (ma mb mc : positive) :
  match (ea ?= eb)%Z with Lt => Lt | Gt => Gt | Eq => (ma ?= mb)%positive end = Lt ->
  match (eb ?= ec)%Z with Lt => Lt | Gt => Gt | Eq => (mb ?= mc)%positive end = Lt ->
  match (ea ?= ec)%Z with Lt => Lt | Gt => Gt | Eq => (ma ?= mc)%positive end = Lt.
Proof.
  destruct (Z.compare_spec ea eb), (Z.compare_spec eb ec); try discriminate;
    destruct (Z.compare_spec ea ec); try lia; try reflexivity.
  rewrite !Pos.compare_lt_iff. lia.
Qed.

Lemma lex_neg (ea eb ec : Z) (ma mb mc : positive) :
  match (ea ?= eb)%Z with Lt => Gt | Gt => Lt | Eq => CompOpp (ma ?= mb)%positive end = Lt ->
  match (eb ?= ec)%Z with Lt => Gt | Gt => Lt | Eq => CompOpp (mb ?= mc)%positive end = Lt ->
  match (ea ?= ec)%Z with Lt => Gt | Gt => Lt | Eq => CompOpp (ma ?= mc)%positive end = Lt.
Proof.
  destruct (Z.compare_spec ea eb), (Z.compare_spec eb ec); try discriminate;
    destruct (Z.compare_spec ea ec); try lia; try reflexivity.
  rewrite <- !Pos.compare_antisym, !Pos.compare_lt_iff. lia.
Qed.

Lemma SFcompare_Lt_trans (a b c : spec_float) :
  SFcompare a b = Some Lt -> SFcompare b c = Some Lt -> SFcompare a c = Some Lt.
Proof.
  destruct a as [sa|sa| |sa ma ea], b as [sb|sb| |sb mb eb], c as [sc|sc| |sc mc ec];
    simpl; try discriminate;
    try (destruct sa; try discriminate);
    try (destruct sb; try discriminate);
    try (destruct sc; try discriminate);
    try reflexivity; try congruence; rewrite !compare_cont_Eq;
    intros H1 H2; injection H1 as H1; injection H2 as H2; f_equal.
  - exact (lex_neg _ _ _ _ _ _ H1 H2).
  - exact (lex_pos _ _ _ _ _ _ H1 H2).
Qed.

Lemma SFcompare_refl (a : spec_float) :
  a <> S754_nan -> SFcompare a a = Some Eq.
Proof.
  destruct a as [s|s| |s m e]; simpl; try congruence; intros _.
  - now destruct s.
  - destruct s; rewrite Z.compare_refl, compare_cont_Eq, Pos.compare_refl;
      reflexivity.
Qed.

Lemma SFcompare_antisym (a b : spec_float) :
  SFcompare b a = option_map CompOpp (SFcompare a b).
Proof.
  destruct a as [sa|sa| |sa ma ea], b as [sb|sb| |sb mb eb]; simpl;
    try reflexivity;
    try (destruct sa); try (destruct sb); try reflexivity; f_equal;
    rewrite !compare_cont_Eq, (Z.compare_antisym ea eb), (Pos.compare_antisym ma mb);
    destruct (ea ?= eb)%Z; simpl; try reflexivity;
    now rewrite ?CompOpp_involutive.
Qed.

Lemma SFcompare_Eq_Lt_trans (a b c : spec_float) :
  SFcompare a b = Some Eq -> SFcompare b c = Some Lt -> SFcompare a c = Some Lt.
Proof.
  destruct a as [sa|sa| |sa ma ea], b as [sb|sb| |sb mb eb], c as [sc|sc| |sc mc ec];
    simpl; try discriminate;
    try (destruct sa; try discriminate);
    try (destruct sb; try discriminate);
    try (destruct sc; try discriminate);
    try reflexivity; try congruence; rewrite !compare_cont_Eq;
    intros H1 H2; injection H1 as H1; injection H2 as H2; f_equal;
    destruct (Z.compare_spec ea eb); try discriminate; subst eb;
    destruct (ea ?= ec)%Z; try discriminate; try reflexivity.
  - destruct (Pos.compare_spec ma mb); try discriminate. now subst.
  - destruct (Pos.compare_spec ma mb); try discriminate. now subst.
Qed.

Lemma SFcompare_Eq_sym (a b : spec_float) :
  SFcompare a b = Some Eq -> SFcompare b a = Some Eq.
Proof. intros H. now rewrite SFcompare_antisym, H. Qed.

Lemma SFcompare_None (a b : spec_float) :
  SFcompare a b = None <-> a = S754_nan \/ b = S754_nan.
Proof.
  destruct a as [sa|sa| |sa ma ea], b as [sb|sb| |sb mb eb]; simpl;
    split; intros H; try discriminate; auto;
    destruct H as [H|H]; discriminate.
Qed.

(** *** Comparison of primitive floats *)

Lemma ltb_irrefl (x : float) : (x <? x) = false.
Proof.
  rewrite ltb_spec. unfold SFltb.
  destruct (is_nan x) eqn:E.
  - apply Prim2SF_nan_iff in E. now rewrite E.
  - apply is_nan_false_SF in E. now rewrite SFcompare_refl.
Qed.

Lemma ltb_trans (x y z : float) :
  (x <? y) = true -> (y <? z) = true -> (x <? z) = true.
Proof.
  rewrite !ltb_spec. unfold SFltb. intros H1 H2.
  rewrite (SFcompare_Lt_trans (Prim2SF x) (Prim2SF y) (Prim2SF z)); auto.
  - destruct (SFcompare (Prim2SF x) (Prim2SF y)) as [[]|]; congruence.
  - destruct (SFcompare (Prim2SF y) (Prim2SF z)) as [[]|]; congruence.
Qed.

(** The step of a running minimum: whatever was not below the old minimum is
    not below a new, smaller one. *)
Lemma ltb_not_below (y m x : float) :
  (y <? m) = false -> (x <? m) = true -> (y <? x) = false.
Proof.
  intros H1 H2. destruct (y <? x) eqn:E; [|reflexivity].
  rewrite (ltb_trans y x m E H2) in H1. discriminate.
Qed.

Lemma ltb_true_not_nan (x y : float) :
  (x <? y) = true -> is_nan x = false /\ is_nan y = false.
Proof.
  rewrite ltb_spec. unfold SFltb. intros H.
  rewrite !is_nan_false_SF.
  split; intros E; rewrite E in H; simpl in H; try discriminate.
  destruct (Prim2SF x); discriminate.
Qed.

Lemma ltb_nan_l (x y : float) : is_nan x = true -> (x <? y) = false.
Proof.
  intros H. destruct (x <? y) eqn:E; [|reflexivity].
  apply ltb_true_not_nan in E. destruct E; congruence.
Qed.

Lemma ltb_nan_r (x y : float) : is_nan y = true -> (x <? y) = false.
Proof.
  intros H. destruct (x <? y) eqn:E; [|reflexivity].
  apply ltb_true_not_nan in E. destruct E; congruence.
Qed.

(** On numbers the order is total: what is not below is at least. *)
Lemma ltb_false_leb (x y : float) :
  is_nan x = false -> is_nan y = false -> (x <? y) = false -> (y <=? x) = true.
Proof.
  rewrite !is_nan_false_SF, ltb_spec, leb_spec. unfold SFltb, SFleb.
  intros Hx Hy. rewrite (SFcompare_antisym (Prim2SF x) (Prim2SF y)).
  destruct (SFcompare (Prim2SF x) (Prim2SF y)) as [[]|] eqn:E; simpl;
    try congruence.
  apply SFcompare_None in E. tauto.
Qed.

Lemma leb_ltb_false (x y : float) : (x <=? y) = true -> (y <? x) = false.
Proof.
  rewrite ltb_spec, leb_spec. unfold SFltb, SFleb.
  rewrite (SFcompare_antisym (Prim2SF x) (Prim2SF y)).
  destruct (SFcompare (Prim2SF x) (Prim2SF y)) as [[]|]; simpl; congruence.
Qed.

Lemma leb_ltb_trans (x y z : float) :
  (x <=? y) = true -> (y <? z) = true -> (x <? z) = true.
Proof.
  rewrite !ltb_spec, leb_spec. unfold SFltb, SFleb. intros H1 H2.
  destruct (SFcompare (Prim2SF y) (Prim2SF z)) as [[]|] eqn:E2; try discriminate.
  destruct (SFcompare (Prim2SF x) (Prim2SF y)) as [[]|] eqn:E1; try discriminate.
  - now rewrite (SFcompare_Eq_Lt_trans _ _ _ E1 E2).
  - now rewrite (SFcompare_Lt_trans _ _ _ E1 E2).
Qed.

Lemma ltb_asym (x y : float) : (x <? y) = true -> (y <? x) = false.
Proof.
  intros H. destruct (y <? x) eqn:E; [|reflexivity].
  rewrite <- (ltb_irrefl x). symmetry. now apply ltb_trans with y.
Qed.

Lemma ltb_leb_false (x y : float) : (x <? y) = true -> (y <=? x) = false.
Proof.
  intros H. destruct (y <=? x) eqn:E; [|reflexivity].
  rewrite <- (ltb_irrefl y). symmetry. now apply leb_ltb_trans with x.
Qed.

(** Two numbers are equal or one is below the other. *)
Lemma trichotomy (x y : float) :
  is_nan x = false -> is_nan y = false ->
  (x <? y) = true \/ (x =? y) = true \/ (y <? x) = true.
Proof.
  rewrite !is_nan_false_SF, !ltb_spec, eqb_spec. unfold SFltb, SFeqb.
  intros Hx Hy. rewrite (SFcompare_antisym (Prim2SF x) (Prim2SF y)).
  destruct (SFcompare (Prim2SF x) (Prim2SF y)) as [[]|] eqn:E; simpl; auto.
  apply SFcompare_None in E. tauto.
Qed.

Lemma eqb_refl (x : float) : is_nan x = false -> (x =? x) = true.
Proof.
  rewrite is_nan_false_SF, eqb_spec. unfold SFeqb. intros H.
  now rewrite SFcompare_refl.
Qed.

Lemma eqb_sym (x y : float) : (x =? y) = (y =? x).
Proof.
  rewrite !eqb_spec. unfold SFeqb.
  rewrite (SFcompare_antisym (Prim2SF x) (Prim2SF y)).
  destruct (SFcompare (Prim2SF x) (Prim2SF y)) as [[]|]; reflexivity.
Qed.

Lemma eqb_true_not_nan (x y : float) :
  (x =? y) = true -> is_nan x = false /\ is_nan y = false.
Proof.
  rewrite eqb_spec. unfold SFeqb. intros H.
  rewrite !is_nan_false_SF.
  split; intros E; rewrite E in H; simpl in H; try discriminate.
  destruct (Prim2SF x); discriminate.
Qed.

Lemma eqb_ltb_false (x y : float) : (x =? y) = true -> (x <? y) = false.
Proof.
  rewrite eqb_spec, ltb_spec. unfold SFeqb, SFltb.
  destruct (SFcompare (Prim2SF x) (Prim2SF y)) as [[]|]; congruence.
Qed.

Lemma eqb_ltb_trans (x y z : float) :
  (x =? y) = true -> (y <? z) = true -> (x <? z) = true.
Proof.
  rewrite eqb_spec, !ltb_spec. unfold SFeqb, SFltb. intros H1 H2.
  destruct (SFcompare (Prim2SF x) (Prim2SF y)) as [[]|] eqn:E1; try discriminate.
  destruct (SFcompare (Prim2SF y) (Prim2SF z)) as [[]|] eqn:E2; try discriminate.
  now rewrite (SFcompare_Eq_Lt_trans _ _ _ E1 E2).
Qed.

Lemma eqb_trans (x y z : float) :
  (x =? y) = true -> (y =? z) = true -> (x =? z) = true.
Proof.
  intros H1 H2.
  destruct (eqb_true_not_nan _ _ H1) as [Hx _].
  destruct (eqb_true_not_nan _ _ H2) as [_ Hz].
  destruct (trichotomy x z Hx Hz) as [H|[H|H]]; auto.
  - rewrite eqb_sym in H1.
    pose proof (eqb_ltb_trans _ _ _ H1 H) as H3.
    rewrite (eqb_ltb_false _ _ H2) in H3. discriminate.
  - pose proof (eqb_ltb_trans _ _ _ H2 H) as H3.
    rewrite eqb_sym in H1.
    rewrite (eqb_ltb_false _ _ H1) in H3. discriminate.
Qed.

(** *** Subtraction and absolute value *)

Lemma is_nan_abs (x : float) : is_nan (abs x) = is_nan x.
Proof.
  destruct (is_nan x) eqn:E.
  - apply Prim2SF_nan_iff. rewrite abs_spec.
    apply Prim2SF_nan_iff in E. now rewrite E.
  - apply is_nan_false_SF. rewrite abs_spec.
    apply is_nan_false_SF in E. destruct (Prim2SF x); simpl; congruence.
Qed.

Lemma is_nan_sub_l (x y : float) : is_nan x = true -> is_nan (x - y) = true.
Proof.
  intros E. apply Prim2SF_nan_iff. rewrite sub_spec.
  apply Prim2SF_nan_iff in E. now rewrite E.
Qed.

Lemma is_nan_sub_r (x y : float) : is_nan y = true -> is_nan (x - y) = true.
Proof.
  intros E. apply Prim2SF_nan_iff. rewrite sub_spec.
  apply Prim2SF_nan_iff in E. rewrite E. now destruct (Prim2SF x).
Qed.

Lemma abs_nonneg (x : float) : is_nan x = false -> (0 <=? abs x) = true.
Proof.
  intros E. rewrite leb_spec, abs_spec. apply is_nan_false_SF in E.
  change (Prim2SF 0) with (S754_zero false).
  destruct (Prim2SF x); try reflexivity; congruence.
Qed.

End F64.

(** ** The library operations the script applies to the simulation table

    [Series.mean], [Series.std] and [Series.unique] of pandas and the builtin
    [sorted], by their documented behaviour on a float64 column. *)

Module Pandas.

(** Missing values (NaN) are skipped by the reductions ([skipna=True]). *)
Definition notna (xs : list float) : list float :=
  filter (fun x => negb (is_nan x)) xs.

(** The values are added from left to right.  The libraries may group the
    additions otherwise; the sums evaluated below are exact whatever the
    grouping, and the general results do not depend on it. *)
Definition sum (xs : list float) : float := fold_left add xs 0.

(** [Series.mean()]: the sum of the values present over their count; on an
    empty selection this is [0/0], the missing-value marker NaN. *)
Definition mean (xs : list float) : float :=
  let v := notna xs in sum v / F64.nat_to_float (length v).

(** [Series.std()], [ddof=1]: with fewer than two values present the result
    is the missing-value marker. *)
Definition std (xs : list float) : float :=
  let v := notna xs in
  let count := length v in
  if (count <=? 1)%nat then nan
  else
    let avg := sum v / F64.nat_to_float count in
    let sqr := map (fun x => (avg - x) * (avg - x)) v in
    sqrt (sum sqr / F64.nat_to_float (count - 1)).

(** [Series.unique()]: values in order of first appearance; the hash table
    behind it holds NaN once and does not tell [-0.0] from [0.0]. *)
Definition same_key (x y : float) : bool :=
  (x =? y) || (is_nan x && is_nan y).

Fixpoint unique_from (seen xs : list float) : list float :=
  match xs with
  | [] => []
  | x :: xs' =>
      if existsb (same_key x) seen then unique_from seen xs'
      else x :: unique_from (x :: seen) xs'
  end.

Definition unique (xs : list float) : list float := unique_from [] xs.

(** [sorted(...)]: a stable sort by [<]; modelled by insertion, which agrees
    with any stable comparison sort on NaN-free input. *)
Fixpoint insert (x : float) (l : list float) : list float :=
  match l with
  | [] => [x]
  | y :: l' => if x <? y then x :: l else y :: insert x l'
  end.

Definition sorted (xs : list float) : list float :=
  fold_left (fun acc x => insert x acc) xs [].

(** *** Membership *)

Lemma same_key_sym (x y : float) : same_key x y = same_key y x.
Proof.
  unfold same_key. rewrite F64.eqb_sym. f_equal. apply andb_comm.
Qed.

Lemma same_key_eqb (x y : float) :
  is_nan x = false -> same_key x y = (x =? y).
Proof. intros H. unfold same_key. rewrite H. apply orb_false_r. Qed.

Lemma In_insert (x y : float) (l : list float) :
  In x (insert y l) <-> x = y \/ In x l.
Proof.
  induction l as [|z l IH]; simpl.
  - intuition.
  - destruct (y <? z); simpl; rewrite ?IH; intuition.
Qed.

Lemma In_sorted_from (x : float) (xs : list float) : forall acc,
  In x (fold_left (fun acc x => insert x acc) xs acc) <-> In x xs \/ In x acc.
Proof.
  induction xs as [|y xs IH]; intros acc; simpl.
  - intuition.
  - rewrite IH, In_insert. intuition.
Qed.

Lemma In_sorted (x : float) (xs : list float) : In x (sorted xs) <-> In x xs.
Proof. unfold sorted. rewrite In_sorted_from. simpl. intuition. Qed.

Lemma unique_from_incl (xs : list float) : forall seen x,
  In x (unique_from seen xs) -> In x xs.
Proof.
  induction xs as [|y xs IH]; intros seen x; simpl; [tauto|].
  destruct (existsb (same_key y) seen).
  - intros H. right. eapply IH; eauto.
  - intros [H|H]; [now left|]. right. eapply IH; eauto.
Qed.

(** Every value of the column is represented: by itself or by an earlier
    value with the same key. *)
Lemma unique_from_complete (xs : list float) : forall seen x,
  In x xs ->
  existsb (same_key x) seen = true \/
  exists y, In y (unique_from seen xs) /\ same_key x y = true.
Proof.
  induction xs as [|y xs IH]; intros seen x; simpl; [tauto|].
  intros [->|H].
  - destruct (existsb (same_key x) seen) eqn:E; [now left|].
    right. exists x. split; [now left|].
    unfold same_key. destruct (is_nan x) eqn:N.
    + apply orb_true_r.
    + now rewrite F64.eqb_refl.
  - destruct (existsb (same_key y) seen) eqn:E.
    + apply IH; auto.
    + destruct (IH (y :: seen) x H) as [H1|(z & Hz & Hk)].
      * simpl in H1. apply orb_true_iff in H1. destruct H1 as [H1|H1].
        -- right. exists y. split; [now left|exact H1].
        -- now left.
      * right. exists z. split; [now right|exact Hk].
Qed.

Lemma unique_complete (xs : list float) (x : float) :
  In x xs -> exists y, In y (unique xs) /\ same_key x y = true.
Proof.
  intros H. destruct (unique_from_complete xs [] x H) as [H1|H1];
    [discriminate|exact H1].
Qed.

(** *** The values of [unique] are pairwise different *)

Lemma unique_from_fresh (xs : list float) : forall seen,
  Forall (fun a => Forall (fun s => same_key a s = false) seen)
    (unique_from seen xs).
Proof.
  induction xs as [|y xs IH]; intros seen; simpl; [constructor|].
  destruct (existsb (same_key y) seen) eqn:E; [apply IH|].
  constructor.
  - apply Forall_forall. intros s Hs.
    destruct (same_key y s) eqn:K; [|reflexivity].
    rewrite <- E. symmetry. apply existsb_exists. eauto.
  - specialize (IH (y :: seen)). eapply Forall_impl; [|exact IH].
    intros a Ha. now inversion Ha.
Qed.

Lemma unique_from_distinct (xs : list float) : forall seen,
  ForallOrdPairs (fun a b => same_key a b = false) (unique_from seen xs).
Proof.
  induction xs as [|y xs IH]; intros seen; simpl; [constructor|].
  destruct (existsb (same_key y) seen); [apply IH|].
  constructor; [|apply IH].
  pose proof (unique_from_fresh xs (y :: seen)) as H.
  eapply Forall_impl; [|exact H].
  intros a Ha. inversion Ha; subst. now rewrite same_key_sym.
Qed.

(** *** On numbers, [sorted] after [unique] is strictly ascending *)

Definition lt (x y : float) : Prop := (x <? y) = true.
Definition number (x : float) : Prop := is_nan x = false.

Lemma insert_sorted (x : float) (l : list float) :
  number x -> Forall number l ->
  Forall (fun a => (x =? a) = false) l ->
  StronglySorted lt l -> StronglySorted lt (insert x l).
Proof.
  intros Hx Hn Hd Hs. induction Hs as [|y l Hs IH Hy]; simpl.
  - repeat constructor.
  - inversion Hn; subst. inversion Hd; subst.
    destruct (x <? y) eqn:E.
    + constructor; [now constructor|].
      constructor; [exact E|].
      eapply Forall_impl; [|exact Hy].
      intros a Ha. unfold lt in *. now apply F64.ltb_trans with y.
    + constructor; [now apply IH|].
      apply Forall_forall. intros a Ha. apply In_insert in Ha.
      destruct Ha as [->|Ha].
      * destruct (F64.trichotomy x y) as [H|[H|H]]; auto; congruence.
      * rewrite Forall_forall in Hy. now apply Hy.
Qed.

Lemma sorted_from_sorted (xs : list float) : forall acc,
  Forall number xs -> Forall number acc ->
  ForallOrdPairs (fun a b => (a =? b) = false) xs ->
  Forall (fun x => Forall (fun a => (x =? a) = false) acc) xs ->
  StronglySorted lt acc ->
  StronglySorted lt (fold_left (fun acc x => insert x acc) xs acc).
Proof.
  induction xs as [|x xs IH]; intros acc Hn Ha Hd Hf Hs; simpl; [exact Hs|].
  inversion Hn; subst. inversion Hd; subst. inversion Hf; subst.
  apply IH; auto.
  - apply Forall_forall. intros a Hin. apply In_insert in Hin.
    destruct Hin as [->|Hin]; auto.
    rewrite Forall_forall in Ha. now apply Ha.
  - apply Forall_forall. intros y Hy.
    apply Forall_forall. intros a Hin. apply In_insert in Hin.
    destruct Hin as [->|Hin].
    + rewrite F64.eqb_sym.
      match goal with H : Forall (fun b => (x =? b) = false) xs |- _ =>
        rewrite Forall_forall in H; now apply H end.
    + match goal with H : Forall (fun x => Forall _ acc) xs |- _ =>
        rewrite Forall_forall in H; specialize (H y Hy);
        rewrite Forall_forall in H; now apply H end.
  - now apply insert_sorted.
Qed.

Lemma sorted_unique_ascending (xs : list float) :
  Forall number xs -> StronglySorted lt (sorted (unique xs)).
Proof.
  intros Hn.
  assert (Hu : Forall number (unique xs)).
  { apply Forall_forall. intros x Hx. apply unique_from_incl in Hx.
    rewrite Forall_forall in Hn. now apply Hn. }
  apply sorted_from_sorted; auto.
  - pose proof (unique_from_distinct xs []) as Hd. fold (unique xs) in Hd.
    revert Hu. induction Hd as [|a l Ha Hd IH]; intros Hu; constructor.
    + inversion Hu; subst.
      eapply Forall_impl; [|exact Ha]. intros b Hb. cbv beta in Hb.
      now rewrite same_key_eqb in Hb.
    + inversion Hu; subst. now apply IH.
  - apply Forall_forall. intros; constructor.
  - constructor.
Qed.

End Pandas.

(** ** Simulation table, grade aggregation and best-position search *)

Module Sim.

(** One row of [Experiment_Full_*.csv], with the columns the analysis reads. *)
Record SimRow := mkRow {
  Grade : Z;
  PosX : float;
  PosY : float;
  AvgTotal : float
}.

Definition DataFrame := list SimRow.

(** [df_perf = df[df['Grade'] > 0]] *)
Definition df_perf (df : DataFrame) : DataFrame :=
  filter (fun r => (0 <? Grade r)%Z) df.

(** The grades the script iterates over, [[1, 2, 3, 4]]. *)
Inductive grade := G1 | G2 | G3 | G4.

Definition grades : list grade := [G1; G2; G3; G4].

Definition grade_num (g : grade) : Z :=
  match g with G1 => 1 | G2 => 2 | G3 => 3 | G4 => 4 end.

(** [patient_freq_abg]: the clinical reference table. *)
Record PatientRef := mkRef {
  abg : list float;
  n : nat;
  avg_abg : float
}.

Definition patient_freq_abg (g : grade) : PatientRef :=
  match g with
  | G1 => mkRef [35; 5; 10; 0; 0; 10] 1 10.0
  | G2 => mkRef [22.5; 20.0; 20.0; 7.5; 27.5; 27.5] 4 20.8
  | G3 => mkRef [60; 35; 35; 15; 30; 20] 1 32.5
  | G4 => mkRef [30; 5; 15; 5; 25; 35] 2 19.2
  end.

(** [df_perf[df_perf['Grade'] == g]] *)
Definition g_data (df : DataFrame) (g : grade) : DataFrame :=
  filter (fun r => (Grade r =? grade_num g)%Z) (df_perf df).

(** [sim_means] and [sim_stds] *)
Definition sim_mean (df : DataFrame) (g : grade) : float :=
  Pandas.mean (map AvgTotal (g_data df g)).

Definition sim_std (df : DataFrame) (g : grade) : float :=
  Pandas.std (map AvgTotal (g_data df g)).

Definition sim_means (df : DataFrame) : list float := map (sim_mean df) grades.
Definition sim_stds (df : DataFrame) : list float := map (sim_std df) grades.

(** [positions = sorted(g_data['PosX'].unique())] *)
Definition positions (gd : DataFrame) : list float :=
  Pandas.sorted (Pandas.unique (map PosX gd)).

(** [g_data[(g_data['PosX'] == px) & (g_data['PosY'] == py)]['AvgTotal'].mean()] *)
Definition cell_rows (gd : DataFrame) (px py : float) : DataFrame :=
  filter (fun r => (PosX r =? px) && (PosY r =? py)) gd.

Definition sim_val (gd : DataFrame) (px py : float) : float :=
  Pandas.mean (map AvgTotal (cell_rows gd px py)).

(** The state of the search loop: [min_error] and [best_pos]. *)
Record BestPos := mkBest {
  min_error : float;
  best_pos : float * float
}.

Definition init : BestPos := mkBest infinity (0.5, 0.5).

(** The body of the inner loop, for the cell [(px, py)]. *)
Definition visit (gd : DataFrame) (clinical_target : float)
    (py : float) (st : BestPos) (px : float) : BestPos :=
  let error := abs (sim_val gd px py - clinical_target) in
  if error <? min_error st then mkBest error (px, py) else st.

(** [for i, py in enumerate(positions): for j, px in enumerate(positions): ...] *)
Definition search (gd : DataFrame) (clinical_target : float) : BestPos :=
  let ps := positions gd in
  fold_left
    (fun st py => fold_left (visit gd clinical_target py) ps st)
    ps init.

(** [best_positions[grade] = {'pos': best_pos, 'error': min_error}] *)
Definition best_positions (df : DataFrame) (g : grade) : BestPos :=
  search (g_data df g) (avg_abg (patient_freq_abg g)).

(** The cells in the order the two loops visit them: [py] outermost. *)
Definition scan_order (ps : list float) : list (float * float) :=
  flat_map (fun py => map (fun px => (px, py)) ps) ps.

(** [error = abs(sim_val - clinical_target)] at a cell. *)
Definition error_at (gd : DataFrame) (clinical_target : float)
    (c : float * float) : float :=
  abs (sim_val gd (fst c) (snd c) - clinical_target).

(** *** The running minimum of a scan *)

Section RunningMin.

Variable err : float * float -> float.

Definition step (st : BestPos) (c : float * float) : BestPos :=
  if err c <? min_error st then mkBest (err c) c else st.

Definition run (cs : list (float * float)) (st : BestPos) : BestPos :=
  fold_left step cs st.

Lemma run_cons c cs st : run (c :: cs) st = run cs (step st c).
Proof. reflexivity. Qed.

Lemma step_cases st c :
  (step st c = st /\ (err c <? min_error st) = false) \/
  (step st c = mkBest (err c) c /\ (err c <? min_error st) = true).
Proof. unfold step. destruct (err c <? min_error st); auto. Qed.

(** The minimum only decreases, and strictly when the state changes. *)
Lemma run_decreases cs : forall st,
  run cs st = st \/ (min_error (run cs st) <? min_error st) = true.
Proof.
  induction cs as [|c cs IH]; intros st; [now left|].
  rewrite run_cons.
  destruct (step_cases st c) as [[Hs E]|[Hs E]]; rewrite Hs.
  - apply IH.
  - right. destruct (IH (mkBest (err c) c)) as [H|H].
    + rewrite H. exact E.
    + simpl in H. now apply F64.ltb_trans with (err c).
Qed.

(** No visited cell is strictly below the final minimum. *)
Lemma run_lower_bound cs : forall st,
  Forall (fun c => (err c <? min_error (run cs st)) = false) cs.
Proof.
  induction cs as [|c cs IH]; intros st; constructor; [|apply IH].
  rewrite run_cons.
  destruct (step_cases st c) as [[Hs E]|[Hs E]]; rewrite Hs.
  - destruct (run_decreases cs st) as [H|H].
    + now rewrite H.
    + now apply F64.ltb_not_below with (min_error st).
  - destruct (run_decreases cs (mkBest (err c) c)) as [H|H].
    + rewrite H. apply F64.ltb_irrefl.
    + simpl in H. now apply F64.ltb_asym.
Qed.

(** Either nothing was selected, or the result is a visited cell with its own
    error; every cell before it is strictly worse (or undefined), and the
    result is strictly better than the start. *)
Lemma run_first_min cs : forall st,
  run cs st = st \/
  exists pre post,
    cs = pre ++ best_pos (run cs st) :: post /\
    min_error (run cs st) = err (best_pos (run cs st)) /\
    Forall (fun c => (err c <=? min_error (run cs st)) = false) pre /\
    (min_error (run cs st) <? min_error st) = true.
Proof.
  induction cs as [|c cs IH]; intros st; [now left|].
  rewrite run_cons.
  destruct (step_cases st c) as [[Hs E]|[Hs E]]; rewrite Hs.
  - destruct (IH st) as [H|(pre & post & Hcs & He & Hpre & Hlt)]; [now left|].
    right. exists (c :: pre), post. repeat split; auto.
    + simpl. now f_equal.
    + constructor; auto.
      destruct (err c <=? min_error (run cs st)) eqn:L; [|reflexivity].
      rewrite (F64.leb_ltb_trans _ _ _ L Hlt) in E. discriminate.
  - right.
    destruct (IH (mkBest (err c) c)) as [H|(pre & post & Hcs & He & Hpre & Hlt)].
    + exists [], cs. rewrite H. simpl. repeat split; auto.
    + exists (c :: pre), post. simpl in Hlt. repeat split; auto.
      * simpl. now f_equal.
      * constructor; auto. now apply F64.ltb_leb_false.
      * now apply F64.ltb_trans with (err c).
Qed.

(** A cell whose error is undefined leaves the state as it is. *)
Lemma step_nan st c : is_nan (err c) = true -> step st c = st.
Proof. intros H. unfold step. now rewrite F64.ltb_nan_l. Qed.

Lemma run_all_nan cs st :
  Forall (fun c => is_nan (err c) = true) cs -> run cs st = st.
Proof.
  revert st. induction cs as [|c cs IH]; intros st H; [reflexivity|].
  inversion H; subst. rewrite run_cons, step_nan; auto.
Qed.

End RunningMin.

Lemma visit_step (gd : DataFrame) (t py px : float) (st : BestPos) :
  visit gd t py st px = step (error_at gd t) st (px, py).
Proof. reflexivity. Qed.

(** The two nested loops are one pass over [scan_order]. *)
Lemma nested_loops_scan (gd : DataFrame) (t : float) (ps qs : list float) :
  forall st,
    fold_left (fun st py => fold_left (visit gd t py) ps st) qs st =
    run (error_at gd t)
      (flat_map (fun py => map (fun px => (px, py)) ps) qs) st.
Proof.
  induction qs as [|py qs IH]; intros st; [reflexivity|].
  simpl. rewrite IH. unfold run. rewrite fold_left_app. f_equal.
  clear IH. revert st. induction ps as [|px ps IH]; intros st; [reflexivity|].
  simpl. rewrite IH. reflexivity.
Qed.

Lemma search_scan (gd : DataFrame) (t : float) :
  search gd t = run (error_at gd t) (scan_order (positions gd)) init.
Proof. unfold search, scan_order. apply nested_loops_scan. Qed.

Lemma In_scan_order (ps : list float) (px py : float) :
  In (px, py) (scan_order ps) <-> In px ps /\ In py ps.
Proof.
  unfold scan_order. rewrite in_flat_map. split.
  - intros (y & Hy & H). apply in_map_iff in H.
    destruct H as (x & Hx & H). inversion Hx; subst. tauto.
  - intros [Hx Hy]. exists py. split; auto. apply in_map_iff. eauto.
Qed.

Lemma error_nan (gd : DataFrame) (t : float) (c : float * float) :
  is_nan (sim_val gd (fst c) (snd c)) = true -> is_nan (error_at gd t c) = true.
Proof.
  intros H. unfold error_at. rewrite F64.is_nan_abs. now apply F64.is_nan_sub_l.
Qed.

(** The error the search returns is never negative and never undefined. *)
Lemma search_nonneg (gd : DataFrame) (t : float) :
  (0 <=? min_error (search gd t)) = true.
Proof.
  rewrite search_scan.
  destruct (run_first_min (error_at gd t) (scan_order (positions gd)) init)
    as [H|(pre & post & _ & He & _ & Hlt)].
  - rewrite H. reflexivity.
  - rewrite He in *. apply F64.ltb_true_not_nan in Hlt. destruct Hlt as [Hn _].
    unfold error_at in *. rewrite F64.is_nan_abs in Hn.
    now apply F64.abs_nonneg.
Qed.

(** Once some visited cell has a finite error, the search returns a visited
    cell: the first one, in scan order, that attains the least error. *)
Lemma search_selected (gd : DataFrame) (t : float) :
  Exists (fun c => (error_at gd t c <? infinity) = true)
    (scan_order (positions gd)) ->
  exists pre post,
    scan_order (positions gd) = pre ++ best_pos (search gd t) :: post /\
    min_error (search gd t) = error_at gd t (best_pos (search gd t)) /\
    Forall (fun c => (error_at gd t c <=? min_error (search gd t)) = false) pre /\
    (min_error (search gd t) <? infinity) = true.
Proof.
  intros Hex. rewrite search_scan.
  destruct (run_first_min (error_at gd t) (scan_order (positions gd)) init)
    as [H|H]; [|exact H].
  exfalso. apply Exists_exists in Hex. destruct Hex as (c & Hc & Hlt).
  pose proof (run_lower_bound (error_at gd t) (scan_order (positions gd)) init)
    as Hlb.
  rewrite Forall_forall in Hlb. specialize (Hlb c Hc).
  rewrite H in Hlb. simpl in Hlb. congruence.
Qed.

(** Whatever the search returns other than its initial state is a visited
    cell with rows behind it. *)
Lemma search_result_cases (gd : DataFrame) (t : float) :
  search gd t = init \/
  exists pre post,
    scan_order (positions gd) = pre ++ best_pos (search gd t) :: post /\
    min_error (search gd t) = error_at gd t (best_pos (search gd t)) /\
    Forall (fun c => (error_at gd t c <=? min_error (search gd t)) = false) pre /\
    (min_error (search gd t) <? infinity) = true.
Proof.
  rewrite search_scan.
  exact (run_first_min (error_at gd t) (scan_order (positions gd)) init).
Qed.

(** *** The scan order *)

(** Ascending [py] first, then ascending [px]. *)
Definition scan_lt (c1 c2 : float * float) : Prop :=
  Pandas.lt (snd c1) (snd c2) \/
  (snd c1 = snd c2 /\ Pandas.lt (fst c1) (fst c2)).

Lemma StronglySorted_app {A : Type} (R : A -> A -> Prop) (l1 l2 : list A) :
  StronglySorted R l1 -> StronglySorted R l2 ->
  (forall a b, In a l1 -> In b l2 -> R a b) ->
  StronglySorted R (l1 ++ l2).
Proof.
  intros H1 H2 H. induction H1 as [|a l1 H1 IH Ha]; simpl; [exact H2|].
  constructor.
  - apply IH. intros; apply H; simpl; auto.
  - apply Forall_app. split; [exact Ha|].
    apply Forall_forall. intros b Hb. apply H; simpl; auto.
Qed.

Lemma row_sorted (py : float) (ps : list float) :
  StronglySorted Pandas.lt ps ->
  StronglySorted scan_lt (map (fun px => (px, py)) ps).
Proof.
  induction 1 as [|px ps Hs IH Hpx]; simpl; constructor; auto.
  apply Forall_forall. intros c Hc. apply in_map_iff in Hc.
  destruct Hc as (px' & <- & Hin). right. simpl. split; auto.
  rewrite Forall_forall in Hpx. now apply Hpx.
Qed.

Lemma scan_order_sorted (ps : list float) :
  StronglySorted Pandas.lt ps -> StronglySorted scan_lt (scan_order ps).
Proof.
  intros Hps. unfold scan_order.
  assert (G : forall qs, StronglySorted Pandas.lt qs ->
    StronglySorted scan_lt (flat_map (fun py => map (fun px => (px, py)) ps) qs)).
  { induction 1 as [|py qs Hs IH Hpy]; simpl; [constructor|].
    apply StronglySorted_app; auto using row_sorted.
    intros a b Ha Hb. apply in_map_iff in Ha. destruct Ha as (px & <- & _).
    apply in_flat_map in Hb. destruct Hb as (py' & Hpy' & Hb).
    apply in_map_iff in Hb. destruct Hb as (px' & <- & _).
    left. simpl. rewrite Forall_forall in Hpy. now apply Hpy. }
  now apply G.
Qed.

Lemma positions_ascending (gd : DataFrame) :
  Forall (fun r => is_nan (PosX r) = false) gd ->
  StronglySorted Pandas.lt (positions gd).
Proof.
  intros H. apply Pandas.sorted_unique_ascending.
  apply Forall_map. exact H.
Qed.

(** *** Scenarios *)

(** Grade 2, one row per cell: (0,0) 22 dB, (1,0) 18 dB, (0,1) 25 dB,
    (1,1) 20 dB. *)
Definition scenario_rows : DataFrame :=
  [mkRow 2 0.0 0.0 22; mkRow 2 1.0 0.0 18; mkRow 2 0.0 1.0 25; mkRow 2 1.0 1.0 20].

(** Three cells at the same distance 2 dB from a target of 20 dB. *)
Definition tie_rows : DataFrame :=
  [mkRow 2 1.0 1.0 25; mkRow 2 0.0 1.0 18; mkRow 2 1.0 0.0 18; mkRow 2 0.0 0.0 22].

(** A grid with rows on the diagonal only: (1,0) and (0,1) have none. *)
Definition sparse_rows : DataFrame :=
  [mkRow 2 0.0 0.0 22; mkRow 2 1.0 1.0 30].

(** A single row whose [PosY] is not a [PosX] of any row. *)
Definition lone_row : SimRow := mkRow 1 0.0 1.0 10.

(** *** The claims on the best-position search *)

(** C1. For any rows of a grade and any clinical target, the search returns an
    error that is never negative and that no scanned cell undercuts; as soon
    as one scanned cell has a finite error, the returned position is a
    scanned cell, the returned error is [abs(sim_val - target)] at that cell,
    and it is at most the error of every scanned cell whose error is defined.
    [best_positions] is this search on each grade's rows with the grade's
    clinical mean.  On the grade 2 scenario with target 20.8 dB the position
    is (1.0, 1.0) and the error is the binary64 value of [abs(20.0 - 20.8)],
    0.8 dB to within 1e-15. *)
Theorem best_position_minimizes (gd : DataFrame) (target : float) :
  let r := search gd target in
  let cells := scan_order (positions gd) in
  (0 <=? min_error r) = true /\
  Forall (fun c => (error_at gd target c <? min_error r) = false) cells /\
  (Exists (fun c => (error_at gd target c <? infinity) = true) cells ->
     In (best_pos r) cells /\
     min_error r = error_at gd target (best_pos r) /\
     Forall (fun c => is_nan (error_at gd target c) = false ->
                      (min_error r <=? error_at gd target c) = true) cells) /\
  (forall df g,
     best_positions df g = search (g_data df g) (avg_abg (patient_freq_abg g))) /\
  best_positions scenario_rows G2 = mkBest (abs (20.0 - 20.8)) (1.0, 1.0) /\
  (abs (min_error (best_positions scenario_rows G2) - 0.8) <? 1e-15) = true.
Proof.
  intros r cells.
  assert (Hlb : Forall (fun c => (error_at gd target c <? min_error r) = false) cells).
  { unfold r. rewrite search_scan. apply run_lower_bound. }
  split; [apply search_nonneg|]. split; [exact Hlb|].
  split; [|split; [reflexivity|split; vm_compute; reflexivity]].
  intros Hex.
  destruct (search_selected gd target Hex) as (pre & post & Hcs & He & _ & Hlt).
  fold r in Hcs, He, Hlt. fold cells in Hcs.
  split; [|split; [exact He|]].
  - rewrite Hcs. apply in_elt.
  - apply F64.ltb_true_not_nan in Hlt. destruct Hlt as [Hm _].
    eapply Forall_impl; [|exact Hlb]. intros c Hc Hn. cbv beta in Hc.
    now apply F64.ltb_false_leb.
Qed.

Lemma best_position_minimizes_witness :
  Exists (fun c => (error_at (g_data scenario_rows G2) 20.8 c <? infinity) = true)
    (scan_order (positions (g_data scenario_rows G2))) /\
  In (best_pos (search (g_data scenario_rows G2) 20.8))
    (scan_order (positions (g_data scenario_rows G2))) /\
  min_error (search (g_data scenario_rows G2) 20.8) =
    error_at (g_data scenario_rows G2) 20.8
      (best_pos (search (g_data scenario_rows G2) 20.8)).
Proof.
  assert (H : Exists
    (fun c => (error_at (g_data scenario_rows G2) 20.8 c <? infinity) = true)
    (scan_order (positions (g_data scenario_rows G2)))).
  { apply Exists_cons_hd. vm_compute. reflexivity. }
  split; [exact H|].
  destruct (best_position_minimizes (g_data scenario_rows G2) 20.8)
    as (_ & _ & K & _).
  destruct (K H) as (K1 & K2 & _). split; [exact K1|exact K2].
Defined.

(** C2. The cell the search returns is the first one, in scan order, that
    attains the least error: no cell before it is at or below the returned
    error, and no cell after it is strictly below.  A cell whose error only
    equals the running minimum leaves the state unchanged.  The scan order
    is ascending Y, then ascending X (for position columns without NaN). *)
Theorem tie_break_first_in_scan_order (gd : DataFrame) (target : float) :
  let r := search gd target in
  let cells := scan_order (positions gd) in
  (r = init \/
   exists pre post,
     cells = pre ++ best_pos r :: post /\
     min_error r = error_at gd target (best_pos r) /\
     Forall (fun c => (error_at gd target c <=? min_error r) = false) pre /\
     Forall (fun c => (error_at gd target c <? min_error r) = false) post) /\
  (forall py px st,
     (min_error st <=? error_at gd target (px, py)) = true ->
     visit gd target py st px = st) /\
  (Forall (fun row => is_nan (PosX row) = false) gd ->
     StronglySorted scan_lt cells) /\
  scan_order (positions tie_rows) = [(0, 0); (1, 0); (0, 1); (1, 1)] /\
  search tie_rows 20 = mkBest 2 (0, 0) /\
  map (error_at tie_rows 20) (scan_order (positions tie_rows)) = [2; 2; 2; 5].
Proof.
  intros r cells. split; [|split; [|split]].
  - destruct (search_result_cases gd target)
      as [H|(pre & post & Hcs & He & Hpre & _)]; [now left|right].
    exists pre, post. fold r in Hcs, He, Hpre. fold cells in Hcs.
    repeat split; auto.
    assert (Hlb : Forall (fun c => (error_at gd target c <? min_error r) = false) cells).
    { unfold r. rewrite search_scan. apply run_lower_bound. }
    rewrite Hcs in Hlb. apply Forall_app in Hlb. destruct Hlb as [_ Hlb].
    now inversion Hlb.
  - intros py px st H. rewrite visit_step. unfold step.
    now rewrite (F64.leb_ltb_false _ _ H).
  - intros Hn. apply scan_order_sorted. now apply positions_ascending.
  - repeat split; vm_compute; reflexivity.
Qed.

Lemma tie_break_first_in_scan_order_witness :
  StronglySorted scan_lt (scan_order (positions tie_rows)).
Proof.
  destruct (tie_break_first_in_scan_order tie_rows 20) as (_ & _ & H & _).
  apply H. repeat constructor.
Defined.

(** C3. A cell without rows has an undefined mean; visiting it never changes
    the running minimum or the best position, whatever the state and the
    target, and its error is not zero.  Hence what the search returns is
    either its untouched initial state or a cell that has rows and a defined
    mean.  On the sparse grid the empty cells (1,0) and (0,1) are passed
    over, also for a target of 1 dB, against which an error of zero or a
    value of zero would have won. *)
Theorem missing_cell_never_selected (gd : DataFrame) (target : float) :
  (forall px py st,
     cell_rows gd px py = [] ->
     is_nan (sim_val gd px py) = true /\
     visit gd target py st px = st /\
     (error_at gd target (px, py) =? 0) = false) /\
  (let r := search gd target in
   r = init \/
   (In (best_pos r) (scan_order (positions gd)) /\
    cell_rows gd (fst (best_pos r)) (snd (best_pos r)) <> [] /\
    is_nan (sim_val gd (fst (best_pos r)) (snd (best_pos r))) = false)) /\
  cell_rows sparse_rows 1 0 = [] /\
  cell_rows sparse_rows 0 1 = [] /\
  search sparse_rows 20.8 = mkBest (abs (22 - 20.8)) (0, 0) /\
  search sparse_rows 1 = mkBest 21 (0, 0).
Proof.
  split; [|split].
  - intros px py st H.
    assert (Hn : is_nan (sim_val gd px py) = true).
    { unfold sim_val. rewrite H. reflexivity. }
    assert (He : is_nan (error_at gd target (px, py)) = true).
    { now apply error_nan. }
    split; [exact Hn|split].
    + rewrite visit_step. now apply step_nan.
    + destruct (error_at gd target (px, py) =? 0) eqn:E; [|reflexivity].
      apply F64.eqb_true_not_nan in E. destruct E; congruence.
  - intros r.
    destruct (search_result_cases gd target)
      as [H|(pre & post & Hcs & He & _ & Hlt)]; [now left|right].
    fold r in Hcs, He, Hlt.
    assert (Hn : is_nan (sim_val gd (fst (best_pos r)) (snd (best_pos r))) = false).
    { apply F64.ltb_true_not_nan in Hlt. destruct Hlt as [Hm _].
      rewrite He in Hm.
      destruct (is_nan (sim_val gd (fst (best_pos r)) (snd (best_pos r)))) eqn:E;
        [|reflexivity].
      rewrite (error_nan gd target (best_pos r) E) in Hm. discriminate. }
    split; [rewrite Hcs; apply in_elt|split; [|exact Hn]].
    intros Hnil. unfold sim_val in Hn. rewrite Hnil in Hn. discriminate.
  - repeat split; vm_compute; reflexivity.
Qed.

Lemma missing_cell_never_selected_witness :
  is_nan (sim_val sparse_rows 1 0) = true /\
  visit sparse_rows 20.8 0 init 1 = init /\
  (error_at sparse_rows 20.8 (1, 0) =? 0) = false.
Proof.
  destruct (missing_cell_never_selected sparse_rows 20.8) as (H & _).
  apply (H 1 0 init). reflexivity.
Defined.

(** C10. When every scanned cell has an undefined mean, the search returns
    its initial state: position (0.5, 0.5) with error +infinity.  This also
    happens when (0.5, 0.5) is no scanned position, as for a grade whose only
    row lies at (0.0, 1.0). *)
Theorem all_undefined_gives_default (gd : DataFrame) (target : float) :
  Forall (fun c => is_nan (sim_val gd (fst c) (snd c)) = true)
    (scan_order (positions gd)) ->
  search gd target = mkBest infinity (0.5, 0.5).
Proof.
  intros H. rewrite search_scan. apply run_all_nan.
  eapply Forall_impl; [|exact H]. intros c Hc. now apply error_nan.
Qed.

Lemma all_undefined_gives_default_witness :
  scan_order (positions (g_data [lone_row] G1)) = [(0, 0)] /\
  ~ In (0.5, 0.5) (scan_order (positions (g_data [lone_row] G1))) /\
  best_positions [lone_row] G1 = mkBest infinity (0.5, 0.5).
Proof.
  split; [reflexivity|split].
  - intros [H|[]]. apply (f_equal fst) in H. simpl in H.
    apply (f_equal (fun x => x =? 0)) in H. vm_compute in H. discriminate.
  - apply (all_undefined_gives_default (g_data [lone_row] G1)).
    repeat constructor.
Defined.

(** *** The claims on the grid and on the grade statistics *)

(** A row is covered by the scan when it is among the rows of a visited cell. *)
Definition covered (gd : DataFrame) (row : SimRow) : Prop :=
  exists c, In c (scan_order (positions gd)) /\
            In row (cell_rows gd (fst c) (snd c)).

Lemma positions_from_PosX (gd : DataFrame) (p : float) :
  In p (positions gd) -> exists row, In row gd /\ PosX row = p.
Proof.
  unfold positions. rewrite Pandas.In_sorted. intros H.
  apply Pandas.unique_from_incl in H. apply in_map_iff in H.
  destruct H as (row & Hp & Hin). eauto.
Qed.

Lemma positions_represent (gd : DataFrame) (row : SimRow) :
  In row gd -> is_nan (PosX row) = false ->
  exists p, In p (positions gd) /\ (PosX row =? p) = true.
Proof.
  intros Hin Hn.
  destruct (Pandas.unique_complete (map PosX gd) (PosX row)) as (p & Hp & Hk).
  { now apply in_map. }
  exists p. split.
  - unfold positions. now apply Pandas.In_sorted.
  - now rewrite Pandas.same_key_eqb in Hk.
Qed.

(** C7, as the code has it.  Both axes of the scanned grid are the sorted
    distinct [PosX] values of the grade's rows; the [PosY] values are not
    enumerated.  The search visits every pair of these values, and a row is
    covered by the scan as soon as its [PosY] equals the [PosX] of some row
    of the grade (so every row is, on a square grid). *)
Theorem scan_covers_PosX_grid (gd : DataFrame) :
  (forall px py,
     In (px, py) (scan_order (positions gd)) <->
     In px (positions gd) /\ In py (positions gd)) /\
  (forall p, In p (positions gd) -> exists row, In row gd /\ PosX row = p) /\
  (forall row row',
     In row gd -> In row' gd -> is_nan (PosX row) = false ->
     (PosY row =? PosX row') = true ->
     covered gd row).
Proof.
  split; [|split].
  - intros px py. apply In_scan_order.
  - apply positions_from_PosX.
  - intros row row' Hin Hin' Hn Hy.
    destruct (positions_represent gd row Hin Hn) as (p & Hp & Ep).
    destruct (F64.eqb_true_not_nan _ _ Hy) as [_ Hn'].
    destruct (positions_represent gd row' Hin' Hn') as (q & Hq & Eq').
    exists (p, q). split.
    + apply In_scan_order. auto.
    + unfold cell_rows. apply filter_In. split; [exact Hin|].
      simpl. rewrite Ep. simpl. now apply F64.eqb_trans with (PosX row').
Qed.

Lemma scan_covers_PosX_grid_witness :
  covered scenario_rows (mkRow 2 1.0 0.0 18).
Proof.
  destruct (scan_covers_PosX_grid scenario_rows) as (_ & _ & H).
  apply (H (mkRow 2 1.0 0.0 18) (mkRow 2 0.0 0.0 22)); simpl; auto.
Defined.

(** C7, as stated, fails: the only row of grade 1 lies at (0.0, 1.0); the
    scanned grid is the single cell (0.0, 0.0), the [PosY] value 1.0 is on no
    axis, and the row's position pair is not covered. *)
Lemma asymmetric_grid_pair_not_scanned :
  In lone_row (g_data [lone_row] G1) /\
  scan_order (positions (g_data [lone_row] G1)) = [(0, 0)] /\
  ~ In (PosY lone_row) (positions (g_data [lone_row] G1)) /\
  ~ (forall row, In row (g_data [lone_row] G1) ->
       covered (g_data [lone_row] G1) row).
Proof.
  split; [now left|]. split; [reflexivity|]. split.
  - intros [H|[]].
    apply (f_equal (fun x => x =? 0)) in H. vm_compute in H. discriminate.
  - intros H. destruct (H lone_row) as (c & Hc & Hr); [now left|].
    destruct Hc as [<-|[]]. vm_compute in Hr. exact Hr.
Qed.

(** The spec's words for the two statistics: the arithmetic mean, and the
    sample standard deviation (divisor [n - 1]) around it. *)
Definition arithmetic_mean (xs : list float) : float :=
  Pandas.sum xs / F64.nat_to_float (length xs).

Definition sample_std (xs : list float) : float :=
  let m := arithmetic_mean xs in
  sqrt (Pandas.sum (map (fun x => (m - x) * (m - x)) xs)
        / F64.nat_to_float (length xs - 1)).

Lemma notna_numbers (xs : list float) :
  Forall (fun x => is_nan x = false) xs -> Pandas.notna xs = xs.
Proof.
  induction 1 as [|x xs Hx _ IH]; [reflexivity|].
  unfold Pandas.notna in *. simpl. now rewrite Hx, IH.
Qed.

Lemma g_data_filter (df : DataFrame) (g : grade) :
  g_data df g = filter (fun r => (Grade r =? grade_num g)%Z) df.
Proof.
  unfold g_data, df_perf. induction df as [|r df IH]; [reflexivity|].
  simpl. destruct (Grade r =? grade_num g)%Z eqn:E.
  - apply Z.eqb_eq in E.
    assert (H : (0 <? Grade r)%Z = true).
    { rewrite E. now destruct g. }
    rewrite H. simpl. apply Z.eqb_eq in E. rewrite E. now f_equal.
  - destruct (0 <? Grade r)%Z; simpl; [rewrite E|]; exact IH.
Qed.

(** Rows of grades 0, 1 and 2 mixed; grade 1 has 10, 20 and 30 dB. *)
Definition stats_rows : DataFrame :=
  [mkRow 1 0.0 0.0 10; mkRow 0 0.5 0.5 0; mkRow 2 0.0 0.0 40;
   mkRow 1 1.0 0.0 20; mkRow 1 0.0 1.0 30].

(** C6. The statistics of a grade are taken over the rows of [df_perf] (grade
    above 0) that have this grade, which are exactly the rows of the table
    with this grade; on values that are all present they are the arithmetic
    mean and the sample standard deviation.  Rows 10, 20, 30 of one grade
    give mean 20.0 and standard deviation 10.0. *)
Theorem grade_statistics (df : DataFrame) (g : grade) :
  (forall row, In row (df_perf df) <-> In row df /\ (0 < Grade row)%Z) /\
  (forall row, In row (g_data df g) <-> In row df /\ Grade row = grade_num g) /\
  sim_mean df g = Pandas.mean (map AvgTotal (g_data df g)) /\
  sim_std df g = Pandas.std (map AvgTotal (g_data df g)) /\
  (Forall (fun row => is_nan (AvgTotal row) = false) (g_data df g) ->
     sim_mean df g = arithmetic_mean (map AvgTotal (g_data df g)) /\
     ((2 <= length (g_data df g))%nat ->
      sim_std df g = sample_std (map AvgTotal (g_data df g)))) /\
  map AvgTotal (g_data stats_rows G1) = [10; 20; 30] /\
  sim_mean stats_rows G1 = 20.0 /\
  sim_std stats_rows G1 = 10.0.
Proof.
  split; [|split; [|split; [|split; [|split]]]].
  - intros row. unfold df_perf. rewrite filter_In, Z.ltb_lt. tauto.
  - intros row. rewrite g_data_filter, filter_In, Z.eqb_eq. tauto.
  - reflexivity.
  - reflexivity.
  - intros Hn.
    assert (Hv : Pandas.notna (map AvgTotal (g_data df g)) =
                 map AvgTotal (g_data df g)).
    { apply notna_numbers. now apply Forall_map. }
    split.
    + unfold sim_mean, Pandas.mean. now rewrite Hv.
    + intros Hlen. unfold sim_std, Pandas.std. rewrite Hv, length_map.
      destruct (length (g_data df g) <=? 1)%nat eqn:E.
      * apply Nat.leb_le in E. lia.
      * unfold sample_std, arithmetic_mean. now rewrite length_map.
  - repeat split; vm_compute; reflexivity.
Qed.

Lemma grade_statistics_witness :
  sim_mean stats_rows G1 = arithmetic_mean [10; 20; 30] /\
  sim_std stats_rows G1 = sample_std [10; 20; 30].
Proof.
  destruct (grade_statistics stats_rows G1) as (_ & _ & _ & _ & H & _).
  destruct H as [H1 H2]; [repeat constructor|].
  split; [exact H1|]. apply H2. simpl. lia.
Defined.

(** C8. For a grade with exactly one row the standard deviation is the
    missing-value marker NaN, which is not zero (and equal to no number). *)
Theorem single_record_std_undefined (df : DataFrame) (g : grade) :
  length (g_data df g) = 1%nat ->
  sim_std df g = nan /\
  is_nan (sim_std df g) = true /\
  (sim_std df g =? 0) = false.
Proof.
  intros H.
  assert (E : sim_std df g = nan).
  { unfold sim_std, Pandas.std.
    pose proof (filter_length_le (fun x => negb (is_nan x))
                  (map AvgTotal (g_data df g))) as L.
    rewrite length_map, H in L. fold (Pandas.notna (map AvgTotal (g_data df g))) in L.
    destruct (length (Pandas.notna (map AvgTotal (g_data df g))) <=? 1)%nat eqn:E;
      [reflexivity|].
    apply Nat.leb_gt in E. lia. }
  rewrite E. repeat split; reflexivity.
Qed.

Lemma single_record_std_undefined_witness :
  sim_std [mkRow 3 0.5 0.5 12.5] G3 = nan /\
  is_nan (sim_std [mkRow 3 0.5 0.5 12.5] G3) = true /\
  (sim_std [mkRow 3 0.5 0.5 12.5] G3 =? 0) = false.
Proof.
  apply (single_record_std_undefined [mkRow 3 0.5 0.5 12.5] G3). reflexivity.
Defined.

End Sim.

(** ** Python strings, as the parser uses them *)

Module Py.

(** A [str] is a sequence of Unicode code points. *)
Definition char := N.
Definition str := list char.

(** Literals are written as in the script and decoded from UTF-8. *)
Fixpoint utf8_decode (bs : list N) : str :=
  match bs with
  | [] => []
  | b0 :: r =>
      if (b0 <? 128)%N then b0 :: utf8_decode r
      else if (b0 <? 224)%N then
        match r with
        | b1 :: r' => ((b0 - 192) * 64 + (b1 - 128))%N :: utf8_decode r'
        | _ => []
        end
      else if (b0 <? 240)%N then
        match r with
        | b1 :: b2 :: r' =>
            ((b0 - 224) * 4096 + (b1 - 128) * 64 + (b2 - 128))%N :: utf8_decode r'
        | _ => []
        end
      else
        match r with
        | b1 :: b2 :: b3 :: r' =>
            ((b0 - 240) * 262144 + (b1 - 128) * 4096 + (b2 - 128) * 64
             + (b3 - 128))%N :: utf8_decode r'
        | _ => []
        end
  end.

Definition u (s : string) : str :=
  utf8_decode (map N_of_ascii (list_ascii_of_string s)).

Definition newline : str := [10%N].

Fixpoint str_eqb (a b : str) : bool :=
  match a, b with
  | [], [] => true
  | x :: a', y :: b' => (x =? y)%N && str_eqb a' b'
  | _, _ => false
  end.

(** [s.startswith(p)], with what follows the prefix. *)
Fixpoint strip_prefix (p s : str) : option str :=
  match p, s with
  | [], _ => Some s
  | a :: p', b :: s' => if (a =? b)%N then strip_prefix p' s' else None
  | _ :: _, [] => None
  end.

(** The first occurrence of [sep] in [s]: the text before and after it. *)
Fixpoint find (sep s : str) : option (str * str) :=
  match strip_prefix sep s with
  | Some r => Some ([], r)
  | None =>
      match s with
      | [] => None
      | c :: s' =>
          match find sep s' with
          | Some (a, r) => Some (c :: a, r)
          | None => None
          end
      end
  end.

(** [sep in s] *)
Definition contains (sep s : str) : bool :=
  match find sep s with Some _ => true | None => false end.

(** [s.split(sep)] for a non-empty [sep] (every call of the script passes a
    non-empty literal): cut at the occurrences of [sep], left to right. *)
Fixpoint split_fuel (n : nat) (sep s : str) : list str :=
  match find sep s with
  | None => [s]
  | Some (a, r) =>
      match n with
      | O => [s]
      | S n' => a :: split_fuel n' sep r
      end
  end.

Definition split (sep s : str) : list str := split_fuel (length s) sep s.

(** Characters that [str.strip()] and [str.split()] treat as whitespace. *)
Definition isspace (c : char) : bool :=
  ((9 <=? c) && (c <=? 13) || (28 <=? c) && (c <=? 32)
   || (c =? 133) || (c =? 160) || (c =? 5760)
   || (8192 <=? c) && (c <=? 8202)
   || (c =? 8232) || (c =? 8233) || (c =? 8239) || (c =? 8287)
   || (c =? 12288))%N.

Fixpoint lstrip (s : str) : str :=
  match s with
  | c :: s' => if isspace c then lstrip s' else s
  | [] => []
  end.

Definition rstrip (s : str) : str := rev (lstrip (rev s)).

(** [s.strip()] *)
Definition strip (s : str) : str := rstrip (lstrip s).

(** [s.split()]: the maximal runs of non-whitespace characters. *)
Fixpoint words (s : str) : list str :=
  match s with
  | [] => []
  | c :: s' =>
      if isspace c then words s'
      else
        match s' with
        | [] => [[c]]
        | c' :: _ =>
            if isspace c' then [c] :: words s'
            else
              match words s' with
              | w :: ws => (c :: w) :: ws
              | [] => [[c]]
              end
        end
  end.

(** *** Exceptions *)

Inductive exn := IndexError | KeyError | ValueError.

(** The outcome of an expression: a value, or an exception raised. *)
Definition result (A : Type) : Type := (exn + A)%type.

Definition ret {A : Type} (x : A) : result A := inr x.
Definition raise {A : Type} (e : exn) : result A := inl e.

Definition bind {A B : Type} (m : result A) (k : A -> result B) : result B :=
  match m with
  | inl e => inl e
  | inr x => k x
  end.

(** [l[i]] for [i >= 0] and [l[-1]] *)
Definition item {A : Type} (l : list A) (i : nat) : result A :=
  match nth_error l i with
  | Some x => ret x
  | None => raise IndexError
  end.

Definition last_item {A : Type} (l : list A) : result A :=
  match rev l with
  | x :: _ => ret x
  | [] => raise IndexError
  end.

(** *** Dictionaries keyed by floats

    Keys are compared by [==]: [1] and [1.0] are one key, and a NaN key is
    equal to no key. Insertion order is kept. *)
Definition dict := list (float * float).

Fixpoint dict_set (d : dict) (k v : float) : dict :=
  match d with
  | [] => [(k, v)]
  | (k', v') :: d' =>
      if k' =? k then (k', v) :: d' else (k', v') :: dict_set d' k v
  end.

Fixpoint dict_get (d : dict) (k : float) : option float :=
  match d with
  | [] => None
  | (k', v') :: d' => if k' =? k then Some v' else dict_get d' k
  end.

(** [k in d] *)
Definition dict_mem (d : dict) (k : float) : bool :=
  match dict_get d k with Some _ => true | None => false end.

(** [d[k]] *)
Definition getitem (d : dict) (k : float) : result float :=
  match dict_get d k with
  | Some v => ret v
  | None => raise KeyError
  end.

(** Truth value of a container. *)
Definition truthy {A : Type} (l : list A) : bool :=
  match l with [] => false | _ :: _ => true end.

(** *** Facts on [split] and on the dictionaries *)

Lemma split_fuel_cons (n : nat) (sep s : str) :
  exists a l, split_fuel n sep s = a :: l.
Proof.
  destruct n; simpl; destruct (find sep s) as [[a r]|]; eauto.
Qed.

(** [s.split(sep)[0]] is always there. *)
Lemma item_split_0 (sep s : str) : exists a, item (split sep s) 0 = inr a.
Proof.
  destruct (split_fuel_cons (length s) sep s) as (a & l & H).
  exists a. unfold split. now rewrite H.
Qed.

Lemma find_nil_nonempty (sep : str) : sep <> [] -> find sep [] = None.
Proof. destruct sep; [congruence|reflexivity]. Qed.

(** [s.split(sep)[1]] is there when [sep in s]. *)
Lemma item_split_1 (sep s : str) :
  sep <> [] -> contains sep s = true -> exists b, item (split sep s) 1 = inr b.
Proof.
  intros Hsep H. unfold contains in H. unfold split.
  destruct s as [|c s].
  - rewrite find_nil_nonempty in H by assumption. discriminate.
  - cbn [length split_fuel]. destruct (find sep (c :: s)) as [[a r]|];
      [|discriminate].
    destruct (split_fuel_cons (length s) sep r) as (b & l & E).
    exists b. now rewrite E.
Qed.

Lemma dict_mem_getitem (d : dict) (k : float) :
  dict_mem d k = true -> exists v, dict_get d k = Some v /\ getitem d k = inr v.
Proof.
  unfold dict_mem, getitem. destruct (dict_get d k) as [v|]; [eauto|discriminate].
Qed.

Lemma dict_mem_truthy (d : dict) (k : float) :
  dict_mem d k = true -> truthy d = true.
Proof. destruct d; [discriminate|reflexivity]. Qed.

(** *** First occurrences *)

Lemma strip_prefix_spec (p s r : str) : strip_prefix p s = Some r <-> s = p ++ r.
Proof.
  revert s. induction p as [|a p IH]; intros s; simpl.
  - split; congruence.
  - destruct s as [|b s]; [split; discriminate|].
    destruct (N.eqb_spec a b) as [->|Hab].
    + rewrite IH. split; congruence.
    + split; [discriminate|congruence].
Qed.

Lemma find_spec (sep s a r : str) : find sep s = Some (a, r) -> s = a ++ sep ++ r.
Proof.
  revert a. induction s as [|c s IH]; intros a; simpl.
  - destruct (strip_prefix sep []) as [r'|] eqn:E; [|discriminate].
    intros H. inversion H; subst. now apply strip_prefix_spec in E.
  - destruct (strip_prefix sep (c :: s)) as [r'|] eqn:E.
    + intros H. inversion H; subst. now apply strip_prefix_spec in E.
    + destruct (find sep s) as [[a' r']|]; [|discriminate].
      intros H. inversion H; subst. simpl. f_equal. now apply IH.
Qed.

(** No occurrence starts before the one [find] returns. *)
Lemma find_first (sep s a r : str) :
  find sep s = Some (a, r) ->
  forall a' r', s = a' ++ sep ++ r' -> (length a <= length a')%nat.
Proof.
  revert a. induction s as [|c s IH]; intros a; simpl.
  - destruct (strip_prefix sep []); [|discriminate].
    intros H. inversion H; subst. simpl. lia.
  - destruct (strip_prefix sep (c :: s)) as [r0|] eqn:E.
    + intros H. inversion H; subst. simpl. lia.
    + destruct (find sep s) as [[a0 r0]|] eqn:F; [|discriminate].
      intros H a' r' Hs. inversion H; subst.
      destruct a' as [|c' a'].
      * simpl in Hs. apply strip_prefix_spec in Hs. congruence.
      * simpl in Hs. inversion Hs; subst. simpl.
        apply le_n_S. eapply IH; eauto.
Qed.

Lemma find_complete (sep s a' r' : str) :
  s = a' ++ sep ++ r' -> exists a r, find sep s = Some (a, r).
Proof.
  revert s. induction a' as [|c a' IH]; intros s Hs.
  - simpl in Hs. apply strip_prefix_spec in Hs.
    destruct s; simpl; rewrite Hs; eauto.
  - subst s. simpl.
    destruct (strip_prefix sep (c :: a' ++ sep ++ r')); [eauto|].
    destruct (IH _ eq_refl) as (a & r & ->). eauto.
Qed.

Lemma contains_app (sep a' r' : str) : contains sep (a' ++ sep ++ r') = true.
Proof.
  unfold contains.
  now destruct (find_complete sep _ a' r' eq_refl) as (a & r & ->).
Qed.

(** An occurrence that is the first of [p ++ s] and starts after [p] is the
    first of [s]. *)
Lemma find_app_skip (sep p s b r : str) :
  find sep (p ++ s) = Some (p ++ b, r) -> find sep s = Some (b, r).
Proof.
  induction p as [|c p IH]; [trivial|]. simpl.
  destruct (strip_prefix sep (c :: p ++ s)); [discriminate|].
  destruct (find sep (p ++ s)) as [[a0 r0]|]; [|discriminate].
  intros H. inversion H; subst. now apply IH.
Qed.

(** The first piece of a split: the text before the first occurrence. *)
Definition hd_piece (sep s : str) : str :=
  match find sep s with
  | Some (a, _) => a
  | None => s
  end.

Lemma hd_piece_prefix (sep s : str) : exists t, s = hd_piece sep s ++ t.
Proof.
  unfold hd_piece. destruct (find sep s) as [[a r]|] eqn:E.
  - apply find_spec in E. eauto.
  - exists []. now rewrite app_nil_r.
Qed.

Lemma split_fuel_hd (n : nat) (sep s : str) :
  (length s <= n)%nat -> sep <> [] ->
  exists l, split_fuel n sep s = hd_piece sep s :: l.
Proof.
  intros Hn Hsep. unfold hd_piece.
  destruct n; simpl; destruct (find sep s) as [[a r]|] eqn:E; eauto.
  destruct s; [|simpl in Hn; lia].
  rewrite find_nil_nonempty in E by assumption. discriminate.
Qed.

Lemma item_split_0_eq (sep s : str) :
  sep <> [] -> item (split sep s) 0 = inr (hd_piece sep s).
Proof.
  intros Hsep. unfold split.
  destruct (split_fuel_hd (length s) sep s (le_n _) Hsep) as (l & ->).
  reflexivity.
Qed.

Lemma item_split_1_eq (sep s a r : str) :
  sep <> [] -> find sep s = Some (a, r) ->
  item (split sep s) 1 = inr (hd_piece sep r).
Proof.
  intros Hsep H. unfold split. pose proof (find_spec _ _ _ _ H) as Hs.
  assert (Hlen : (length r < length s)%nat).
  { rewrite Hs, !length_app. destruct sep; [congruence|]. simpl. lia. }
  destruct (length s) as [|n]; [lia|]. simpl. rewrite H.
  destruct (split_fuel_hd n sep r) as (l & ->); auto. lia.
Qed.

Lemma str_eqb_eq (a b : str) : str_eqb a b = true <-> a = b.
Proof.
  revert b. induction a as [|x a IH]; intros [|y b]; simpl;
    try (split; [discriminate|congruence]); [tauto|].
  rewrite andb_true_iff, N.eqb_eq, IH. split.
  - intros [-> ->]. reflexivity.
  - intros H. inversion H. auto.
Qed.

End Py.

Notation "x <- m ;; k" := (Py.bind m (fun x => k))
  (at level 61, m at next level, right associativity).

(** [np.mean] of a list: its sum over its length (NaN is not skipped). *)
Module Np.

Definition mean (xs : list float) : float :=
  Pandas.sum xs / F64.nat_to_float (length xs).

End Np.

(** ** A model of [float(s)] on ASCII text

    Used to run the parser on sample documents; the results on the parser
    hold for every behaviour of [float].  The text is stripped of
    whitespace; accepted are an optional sign followed by [inf], [infinity]
    or [nan] in any case, or by a decimal number with optional fraction and
    exponent, digits possibly grouped by single underscores.  The value is
    the binary64 number nearest to the decimal one, ties to even. *)

Module FloatText.

Import Py.

Definition is_digit (c : char) : bool := ((48 <=? c) && (c <=? 57))%N.

(** [(["_"] digit)*] after a first digit. *)
Fixpoint digits_tail (s : str) : list N * str :=
  match s with
  | c :: s' =>
      if is_digit c then
        let (ds, r) := digits_tail s' in ((c - 48)%N :: ds, r)
      else if (c =? 95)%N then
        match s' with
        | c' :: s'' =>
            if is_digit c' then
              let (ds, r) := digits_tail s'' in ((c' - 48)%N :: ds, r)
            else ([], s)
        | [] => ([], s)
        end
      else ([], s)
  | [] => ([], [])
  end.

Definition digitpart (s : str) : option (list N * str) :=
  match s with
  | c :: s' =>
      if is_digit c then
        let (ds, r) := digits_tail s' in Some ((c - 48)%N :: ds, r)
      else None
  | [] => None
  end.

Definition digits_value (ds : list N) : Z :=
  fold_left (fun acc d => (10 * acc + Z.of_N d)%Z) ds 0%Z.

(** [sign]: true for [-]. *)
Definition sign (s : str) : bool * str :=
  match s with
  | c :: s' =>
      if (c =? 45)%N then (true, s')
      else if (c =? 43)%N then (false, s')
      else (false, s)
  | [] => (false, [])
  end.

(** [number]: the digits before and after the point. *)
Definition number (s : str) : option (list N * list N * str) :=
  match digitpart s with
  | Some (ip, r) =>
      match r with
      | c :: r' =>
          if (c =? 46)%N then
            match digitpart r' with
            | Some (fp, r'') => Some (ip, fp, r'')
            | None => Some (ip, [], r')
            end
          else Some (ip, [], r)
      | [] => Some (ip, [], [])
      end
  | None =>
      match s with
      | c :: r' =>
          if (c =? 46)%N then
            match digitpart r' with
            | Some (fp, r'') => Some ([], fp, r'')
            | None => None
            end
          else None
      | [] => None
      end
  end.

(** [exponent], or nothing; what is left must be empty. *)
Definition exponent (s : str) : option Z :=
  match s with
  | [] => Some 0%Z
  | c :: s' =>
      if ((c =? 101) || (c =? 69))%N then
        let (neg, r) := sign s' in
        match digitpart r with
        | Some (ds, []) =>
            Some (if neg then (- digits_value ds)%Z else digits_value ds)
        | _ => None
        end
      else None
  end.

(** The binary64 number nearest to [m * 10^e], for [m > 0]. *)
Definition nearest (neg : bool) (m : Z) (e : Z) : float :=
  let sgn (z : Z) := if neg then (- z)%Z else z in
  if (0 <=? e)%Z then
    SF2Prim (binary_normalize prec emax (sgn (m * 10 ^ e)%Z) 0 false)
  else
    let d := (10 ^ (- e))%Z in
    let s := Z.max 0 (66 + Z.log2 d - Z.log2 m) in
    let q := ((m * 2 ^ s) / d)%Z in
    let sticky := if ((m * 2 ^ s) mod d =? 0)%Z then 0%Z else 1%Z in
    SF2Prim (binary_normalize prec emax (sgn (2 * q + sticky)%Z) (- s - 1) false).

Definition lower (c : char) : char :=
  if ((65 <=? c) && (c <=? 90))%N then (c + 32)%N else c.

Definition named (s : str) : option float :=
  let l := map lower s in
  if str_eqb l [105; 110; 102]%N then Some infinity
  else if str_eqb l [105; 110; 102; 105; 110; 105; 116; 121]%N then Some infinity
  else if str_eqb l [110; 97; 110]%N then Some nan
  else None.

Definition float_of_str (s : str) : option float :=
  let (neg, r) := sign (strip s) in
  match named r with
  | Some x => Some (if neg then - x else x)
  | None =>
      match number r with
      | Some (ip, fp, r') =>
          match exponent r' with
          | Some e =>
              let m := digits_value (ip ++ fp) in
              if (m =? 0)%Z then Some (if neg then neg_zero else zero)
              else Some (nearest neg m (e - Z.of_nat (length fp)))
          | None => None
          end
      | None => None
      end
  end.

End FloatText.

(** ** The patient record parser *)

Module Parser.

Import Py.

Local Open Scope string_scope.
Local Open Scope list_scope.

(** The literals of the script. *)
Definition BAR : char := 9473%N.                  (* the heavy rule, U+2501 *)
Definition BLOCK_HEAD : str := newline ++ u "【환자 ".
Definition ID_END : str := u "】".
Definition PRE_OP : str := u "[수술전]".
Definition SECTION_END : str := u "└".
Definition PIPE : str := u "|".
Definition KHZ : str := u "kHz=".
Definition DB : str := u "dB".
Definition NAN : str := u "nan".
Definition ICW : str := u "【 ICW".
Definition CWD : str := u "【 CWD".

(** [[('R', 'R_B', 'R_A'), ('L', 'L_B', 'L_A')]] *)
Definition sides : list (str * str * str) :=
  [(u "R", u "R_B", u "R_A"); (u "L", u "L_B", u "L_A")].

(** [[0.25, 0.5, 1, 2, 3, 4]] *)
Definition canonical_freqs : list float := [0.25; 0.5; 1; 2; 3; 4].

(** *** [re.split(r'━+\n【환자 ', content)] *)

Fixpoint drop_bars (s : str) : str :=
  match s with
  | c :: s' => if (c =? BAR)%N then drop_bars s' else s
  | [] => []
  end.

(** A match of the pattern at the start of [s], with what follows it: one
    or more rules, all that are there, and then the literal. *)
Definition match_head (s : str) : option str :=
  match s with
  | c :: s' =>
      if (c =? BAR)%N then strip_prefix BLOCK_HEAD (drop_bars s') else None
  | [] => None
  end.

(** The leftmost match. *)
Fixpoint re_find (s : str) : option (str * str) :=
  match match_head s with
  | Some r => Some ([], r)
  | None =>
      match s with
      | [] => None
      | c :: s' =>
          match re_find s' with
          | Some (a, r) => Some (c :: a, r)
          | None => None
          end
      end
  end.

Fixpoint re_split_fuel (n : nat) (s : str) : list str :=
  match re_find s with
  | None => [s]
  | Some (a, r) =>
      match n with
      | O => [s]
      | S n' => a :: re_split_fuel n' r
      end
  end.

Definition re_split (s : str) : list str := re_split_fuel (length s) s.

(** One element of [all_patients]. *)
Record Patient := mkPatient {
  id : str;
  avg_abg : float;
  abg_values : list float;
  freqs : list float
}.

(** One element of [icw_patients] and [cwd_patients]. *)
Record GroupPatient := mkGroupPatient {
  g_avg_abg : float;
  g_abg_values : list float
}.

Section WithFloat.

(** The builtin [float(s)]: the number a string denotes, if any. *)
Variable float_of_str : str -> option float.

Definition py_float (s : str) : result float :=
  match float_of_str s with
  | Some x => ret x
  | None => raise ValueError
  end.

(** [try: ... except: pass] around an update of a dictionary. *)
Definition try_pass (r : result dict) (values : dict) : dict :=
  match r with
  | inr d => d
  | inl _ => values
  end.

(** *** [load_all_patient_abg] *)

(** The body of the [try] in [parse_line], for one [part]. *)
Definition parse_part (part : str) (values : dict) : result dict :=
  p0 <- item (split KHZ part) 0 ;;
  freq <- last_item (words (strip p0)) ;;
  p1 <- item (split KHZ part) 1 ;;
  val <- item (split DB p1) 0 ;;
  if negb (str_eqb val NAN) then
    v <- py_float val ;;
    k <- py_float freq ;;
    ret (dict_set values k v)
  else ret values.

Definition parse_line (line prefix : str) : dict :=
  if contains prefix line then
    fold_left
      (fun values part =>
         if contains KHZ part then try_pass (parse_part part values) values
         else values)
      (split PIPE line) []
  else [].

(** [for line in pre_op.split('\n'): ...], giving [bone] and [air]. *)
Definition read_side (pre_op prefix_b prefix_a : str) : dict * dict :=
  fold_left
    (fun '(bone, air) line =>
       let bone := if contains prefix_b line then parse_line line prefix_b
                   else bone in
       let air := if contains prefix_a line then parse_line line prefix_a
                  else air in
       (bone, air))
    (split newline pre_op) ([], []).

(** [for freq in [0.25, 0.5, 1, 2, 3, 4]: ...], giving [abg_values] and
    [freqs_used]. *)
Fixpoint abg_loop (fs : list float) (bone air : dict)
    (acc : list float * list float) : result (list float * list float) :=
  match fs with
  | [] => ret acc
  | freq :: fs' =>
      if dict_mem bone freq && dict_mem air freq then
        a <- getitem air freq ;;
        b <- getitem bone freq ;;
        abg_loop fs' bone air (fst acc ++ [a - b], snd acc ++ [freq * 1000])
      else abg_loop fs' bone air acc
  end.

(** Lines 163-180: the record of one side, appended when there is one. *)
Definition side_record (patient_id side : str) (bone air : dict)
    (all_patients : list Patient) : result (list Patient) :=
  if truthy bone && truthy air then
    r <- abg_loop canonical_freqs bone air ([], []) ;;
    if truthy (fst r) then
      ret (all_patients ++
           [mkPatient (patient_id ++ u "_" ++ side) (Np.mean (fst r))
              (fst r) (snd r)])
    else ret all_patients
  else ret all_patients.

(** The loop over the two sides. What was appended before an exception
    stays appended. *)
Fixpoint for_sides (ss : list (str * str * str)) (patient_id pre_op : str)
    (all_patients : list Patient) : list Patient * option exn :=
  match ss with
  | [] => (all_patients, None)
  | (side, prefix_b, prefix_a) :: ss' =>
      let '(bone, air) := read_side pre_op prefix_b prefix_a in
      match side_record patient_id side bone air all_patients with
      | inr all_patients' => for_sides ss' patient_id pre_op all_patients'
      | inl e => (all_patients, Some e)
      end
  end.

(** What the head of the [try] body computes: nothing for a block without
    the pre-operative marker ([continue]), else the identifier and the
    pre-operative section. *)
Definition block_head (block : str) : result (option (str * str)) :=
  patient_id <- item (split ID_END block) 0 ;;
  if negb (contains PRE_OP block) then ret None
  else
    p1 <- item (split PRE_OP block) 1 ;;
    pre_op <- item (split SECTION_END p1) 0 ;;
    ret (Some (patient_id, pre_op)).

(** The body of the [try] for one block: the new [all_patients] and the
    exception that ended the body, if one did. *)
Definition block_body (block : str) (all_patients : list Patient)
    : list Patient * option exn :=
  match block_head block with
  | inl e => (all_patients, Some e)
  | inr None => (all_patients, None)
  | inr (Some (patient_id, pre_op)) =>
      for_sides sides patient_id pre_op all_patients
  end.

(** [try: ... except Exception: continue] *)
Definition try_block (all_patients : list Patient) (block : str)
    : list Patient :=
  fst (block_body block all_patients).

(** The function on the text read from the file. *)
Definition load_all_patient_abg (content : str) : result (list Patient) :=
  let patient_blocks := re_split content in
  ret (fold_left try_block (tl patient_blocks) []).

(** *** [load_patient_by_group] *)

(** The body of the inner [try], for one [part]. *)
Definition group_part (part : str) (target : dict) : result dict :=
  p0 <- item (split KHZ part) 0 ;;
  w <- last_item (words (strip p0)) ;;
  freq <- py_float w ;;
  p1 <- item (split KHZ part) 1 ;;
  val <- item (split DB p1) 0 ;;
  if negb (str_eqb val NAN) then
    v <- py_float val ;;
    ret (dict_set target freq v)
  else ret target.

(** [if prefix in line: for part in line.split('|'): ...] *)
Definition group_line (line prefix : str) (target : dict) : dict :=
  if contains prefix line then
    fold_left
      (fun target part =>
         if contains KHZ part then try_pass (group_part part target) target
         else target)
      (split PIPE line) target
  else target.

Definition group_read_side (pre_op prefix_b prefix_a : str) : dict * dict :=
  fold_left
    (fun '(bone, air) line =>
       let bone := group_line line prefix_b bone in
       let air := group_line line prefix_a air in
       (bone, air))
    (split newline pre_op) ([], []).

(** [[air[f] - bone[f] for f in [0.25, 0.5, 1, 2, 3, 4]
      if f in bone and f in air]] *)
Fixpoint group_abg (fs : list float) (bone air : dict)
    : result (list float) :=
  match fs with
  | [] => ret []
  | f :: fs' =>
      if dict_mem bone f && dict_mem air f then
        a <- getitem air f ;;
        b <- getitem bone f ;;
        rest <- group_abg fs' bone air ;;
        ret ((a - b) :: rest)
      else group_abg fs' bone air
  end.

Definition group_side_record (bone air : dict)
    (patients : list GroupPatient) : result (list GroupPatient) :=
  if truthy bone && truthy air then
    abg_values <- group_abg canonical_freqs bone air ;;
    if truthy abg_values then
      ret (patients ++ [mkGroupPatient (Np.mean abg_values) abg_values])
    else ret patients
  else ret patients.

Fixpoint group_for_sides (ss : list (str * str * str)) (pre_op : str)
    (patients : list GroupPatient) : list GroupPatient * option exn :=
  match ss with
  | [] => (patients, None)
  | (_, prefix_b, prefix_a) :: ss' =>
      let '(bone, air) := group_read_side pre_op prefix_b prefix_a in
      match group_side_record bone air patients with
      | inr patients' => group_for_sides ss' pre_op patients'
      | inl e => (patients, Some e)
      end
  end.

Definition group_block_head (block : str) : result (option str) :=
  if negb (contains PRE_OP block) then ret None
  else
    p1 <- item (split PRE_OP block) 1 ;;
    pre_op <- item (split SECTION_END p1) 0 ;;
    ret (Some pre_op).

Definition group_block_body (block : str) (patients : list GroupPatient)
    : list GroupPatient * option exn :=
  match group_block_head block with
  | inl e => (patients, Some e)
  | inr None => (patients, None)
  | inr (Some pre_op) => group_for_sides sides pre_op patients
  end.

Definition group_try_block (patients : list GroupPatient) (block : str)
    : list GroupPatient :=
  fst (group_block_body block patients).

(** The blocks of one section, parsed. *)
Definition parse_section (section : str) : list GroupPatient :=
  fold_left group_try_block (tl (re_split section)) [].

(** [content.split('【 ICW')[1].split('【 CWD')[0] if '【 CWD' in content
     else content.split('【 ICW')[1]] *)
Definition icw_section (content : str) : result str :=
  if contains CWD content then
    p1 <- item (split ICW content) 1 ;;
    item (split CWD p1) 0
  else item (split ICW content) 1.

(** [content.split('【 CWD')[1]] *)
Definition cwd_section (content : str) : result str :=
  item (split CWD content) 1.

Definition load_patient_by_group (content : str)
    : result (list GroupPatient * list GroupPatient) :=
  icw_patients <-
    (if contains ICW content then
       s <- icw_section content ;; ret (parse_section s)
     else ret []) ;;
  cwd_patients <-
    (if contains CWD content then
       s <- cwd_section content ;; ret (parse_section s)
     else ret []) ;;
  ret (icw_patients, cwd_patients).

End WithFloat.

(** *** Sample documents *)

(** A header, a block that has no pre-operative section, and a well-formed
    block; the latter has a [nan] value and a value that is no number. *)
Definition sample_document : str := u
"청력검사 주파수별 상세
━━━━━━━━━━━━
【환자 ICW2】
  [수술후]
  │ R_B 0.5kHz=15dB | 1kHz=25dB
  │ R_A 0.5kHz=35dB | 1kHz=45dB
  └────────
━━━━━━━━━━━━
【환자 ICW1】
  [수술전]
  │ R_B 0.5kHz=10dB | 1kHz=20dB | 2kHz=nandB | 4kHz=??dB
  │ R_A 0.5kHz=30dB | 1kHz=50dB | 2kHz=70dB
  └────────
  [수술후]
  │ R_B 0.5kHz=5dB
  └────────
".

(** The CWD heading before the ICW heading, and one patient block. *)
Definition reversed_document : str := u
"【 CWD 환자군 】
【 ICW 환자군 】
━━━━━━━━━━━━
【환자 ICW1】
  [수술전]
  │ R_B 0.5kHz=10dB | 1kHz=20dB
  │ R_A 0.5kHz=30dB | 1kHz=50dB
  └────────
".

(** One patient block whose bone label stands on two lines. *)
Definition repeated_label_document : str := u
"【 ICW 환자군 】
━━━━━━━━━━━━
【환자 ICW3】
  [수술전]
  │ R_B 0.5kHz=10dB
  │ R_B 1kHz=20dB
  │ R_A 0.5kHz=30dB | 1kHz=50dB
  └────────
".

(** The ICW heading with one block, then the CWD heading with another. *)
Definition grouped_document : str := u
"【 ICW 환자군 】
━━━━━━━━━━━━
【환자 ICW1】
  [수술전]
  │ R_B 0.5kHz=10dB | 1kHz=20dB
  │ R_A 0.5kHz=30dB | 1kHz=50dB
  └────────
【 CWD 환자군 】
━━━━━━━━━━━━
【환자 CWD1】
  [수술전]
  │ L_B 0.5kHz=15dB | 1kHz=15dB
  │ L_A 0.5kHz=55dB | 1kHz=65dB
  └────────
".

(** The two dictionaries of the spec's example:
    bone = {0.5: 10, 1: 20}, air = {0.5: 30, 1: 50, 2: 70}. *)
Definition bone_example : dict := dict_set (dict_set [] 0.5 10) 1 20.
Definition air_example : dict :=
  dict_set (dict_set (dict_set [] 0.5 30) 1 50) 2 70.

(** *** The air-bone gap of one side (lines 163-180) *)

(** The spec's words: the gap [air[f] - bone[f]] at the canonical
    frequencies where both a bone and an air value exist, each with its
    frequency. *)
Definition common (bone air : dict) (fs : list float) : list (float * float) :=
  flat_map
    (fun f =>
       match dict_get air f, dict_get bone f with
       | Some a, Some b => [(f, a - b)]
       | _, _ => []
       end)
    fs.

Definition common_abg (bone air : dict) : list float :=
  map snd (common bone air canonical_freqs).

Definition common_freqs (bone air : dict) : list float :=
  map (fun p => fst p * 1000) (common bone air canonical_freqs).

Lemma abg_loop_common (bone air : dict) (fs : list float) :
  forall acc,
    abg_loop fs bone air acc =
    inr (fst acc ++ map snd (common bone air fs),
         snd acc ++ map (fun p => fst p * 1000) (common bone air fs)).
Proof.
  induction fs as [|f fs IH]; intros [vs us]; simpl.
  - now rewrite !app_nil_r.
  - unfold dict_mem, getitem.
    destruct (dict_get bone f) as [b|], (dict_get air f) as [a|]; simpl;
      rewrite IH; simpl; rewrite <- ?app_assoc; reflexivity.
Qed.

Lemma common_nil_l (air : dict) (fs : list float) : common [] air fs = [].
Proof.
  induction fs as [|f fs IH]; [reflexivity|]. simpl.
  now destruct (dict_get air f).
Qed.

Lemma common_nil_r (bone : dict) (fs : list float) : common bone [] fs = [].
Proof. induction fs as [|f fs IH]; [reflexivity|exact IH]. Qed.

Lemma common_truthy (bone air : dict) (fs : list float) :
  truthy (common bone air fs) = true <->
  exists f, In f fs /\ dict_mem bone f = true /\ dict_mem air f = true.
Proof.
  induction fs as [|f fs IH]; simpl.
  - split; [discriminate|]. now intros (f & [] & _).
  - unfold dict_mem in *.
    destruct (dict_get air f) as [a|] eqn:Ea, (dict_get bone f) as [b|] eqn:Eb;
      simpl.
    + split; [|reflexivity]. intros _. exists f. rewrite Ea, Eb. auto.
    + rewrite IH. split.
      * intros (g & Hg & H). exists g. auto.
      * intros (g & [->|Hg] & H1 & H2); [rewrite Eb in H1; discriminate|eauto].
    + rewrite IH. split.
      * intros (g & Hg & H). exists g. auto.
      * intros (g & [->|Hg] & H1 & H2); [rewrite Ea in H2; discriminate|eauto].
    + rewrite IH. split.
      * intros (g & Hg & H). exists g. auto.
      * intros (g & [->|Hg] & H1 & H2); [rewrite Ea in H2; discriminate|eauto].
Qed.

Lemma truthy_map {A B : Type} (f : A -> B) (l : list A) :
  truthy (map f l) = truthy l.
Proof. now destruct l. Qed.

(** What [side_record] does, in one equation; it raises nothing. *)
Lemma side_record_eq (patient_id side : str) (bone air : dict)
    (all_patients : list Patient) :
  side_record patient_id side bone air all_patients =
  inr (if truthy (common_abg bone air)
       then all_patients ++
            [mkPatient (patient_id ++ u "_" ++ side)
               (Np.mean (common_abg bone air))
               (common_abg bone air) (common_freqs bone air)]
       else all_patients).
Proof.
  unfold side_record, common_abg, common_freqs.
  rewrite abg_loop_common. cbn [bind fst snd app].
  destruct (truthy bone && truthy air) eqn:E;
    [now destruct (truthy (map snd (common bone air canonical_freqs)))|].
  assert (H : common bone air canonical_freqs = []).
  { destruct bone; [apply common_nil_l|].
    destruct air; [apply common_nil_r|discriminate]. }
  now rewrite H.
Qed.

(** C4. For the bone and air mappings of a side, a record is appended
    exactly when some frequency of [0.25, 0.5, 1, 2, 3, 4] has a value in
    both; its [abg_values] are the differences [air[f] - bone[f]] at exactly
    these frequencies, in order, and its [avg_abg] is their mean.  With
    bone = {0.5: 10, 1: 20} and air = {0.5: 30, 1: 50, 2: 70} the values
    are [20, 30] and the mean is 25.0: 2 kHz is left out. *)
Theorem side_record_mean_abg (patient_id side : str) (bone air : dict)
    (all_patients : list Patient) :
  (truthy (common_abg bone air) = true <->
   exists f, In f canonical_freqs /\
             dict_mem bone f = true /\ dict_mem air f = true) /\
  (truthy (common_abg bone air) = true ->
   side_record patient_id side bone air all_patients =
   inr (all_patients ++
        [mkPatient (patient_id ++ u "_" ++ side)
           (Np.mean (common_abg bone air))
           (common_abg bone air) (common_freqs bone air)])) /\
  (truthy (common_abg bone air) = false ->
   side_record patient_id side bone air all_patients = inr all_patients) /\
  common_abg bone_example air_example = [20; 30] /\
  side_record patient_id side bone_example air_example all_patients =
  inr (all_patients ++
       [mkPatient (patient_id ++ u "_" ++ side) 25.0 [20; 30] [500; 1000]]).
Proof.
  split; [|split; [|split; [|split]]].
  - unfold common_abg. rewrite truthy_map. apply common_truthy.
  - intros H. now rewrite side_record_eq, H.
  - intros H. now rewrite side_record_eq, H.
  - reflexivity.
  - rewrite side_record_eq. reflexivity.
Qed.

Lemma side_record_mean_abg_witness :
  side_record (u "ICW1") (u "R") bone_example air_example [] =
  inr [mkPatient (u "ICW1_R") 25.0 [20; 30] [500; 1000]].
Proof.
  destruct (side_record_mean_abg (u "ICW1") (u "R") bone_example air_example [])
    as (_ & H & _).
  rewrite H; reflexivity.
Defined.

(** *** Tolerance of the parser *)

(** The two texts of a token [... <freq>kHz=<value>dB]. *)
Definition token_freq (part : str) : result str :=
  p0 <- item (split KHZ part) 0 ;;
  last_item (words (strip p0)).

Definition token_value (part : str) : result str :=
  p1 <- item (split KHZ part) 1 ;;
  item (split DB p1) 0.

Lemma parse_part_tokens (fl : str -> option float) (part : str) (values : dict) :
  parse_part fl part values =
  (freq <- token_freq part ;;
   val <- token_value part ;;
   if negb (str_eqb val NAN) then
     v <- py_float fl val ;;
     k <- py_float fl freq ;;
     ret (dict_set values k v)
   else ret values).
Proof.
  unfold parse_part, token_freq, token_value.
  destruct (item (split KHZ part) 0) as [e|p0]; [reflexivity|]. cbn [bind].
  destruct (last_item (words (strip p0))) as [e|freq]; [reflexivity|]. cbn [bind].
  destruct (item (split KHZ part) 1) as [e|p1]; reflexivity.
Qed.

Lemma PRE_OP_nonempty : PRE_OP <> [].
Proof. intros H. vm_compute in H. discriminate. Qed.

(** The head of the block body raises nothing. *)
Lemma block_head_ok (block : str) : exists r, block_head block = inr r.
Proof.
  unfold block_head.
  destruct (item_split_0 ID_END block) as (pid & ->). cbn [bind].
  destruct (contains PRE_OP block) eqn:E; cbn [negb]; [|eauto].
  destruct (item_split_1 PRE_OP block PRE_OP_nonempty E) as (p1 & ->).
  cbn [bind].
  destruct (item_split_0 SECTION_END p1) as (pre & ->). cbn [bind]. eauto.
Qed.

Lemma for_sides_ok (fl : str -> option float) (ss : list (str * str * str))
    (patient_id pre_op : str) :
  forall all_patients,
    snd (for_sides fl ss patient_id pre_op all_patients) = None.
Proof.
  induction ss as [|[[side pb] pa] ss IH]; intros st; [reflexivity|].
  cbn [for_sides]. destruct (read_side fl pre_op pb pa) as [bone air].
  rewrite side_record_eq. apply IH.
Qed.

(** No exception ends the body of the [try] for a block. *)
Lemma block_body_ok (fl : str -> option float) (block : str)
    (all_patients : list Patient) :
  snd (block_body fl block all_patients) = None.
Proof.
  unfold block_body. destruct (block_head_ok block) as ([[pid pre]|] & ->);
    [apply for_sides_ok|reflexivity].
Qed.

Lemma try_block_no_marker (fl : str -> option float) (block : str)
    (all_patients : list Patient) :
  contains PRE_OP block = false -> try_block fl all_patients block = all_patients.
Proof.
  intros H. unfold try_block, block_body, block_head.
  destruct (item_split_0 ID_END block) as (pid & ->). cbn [bind].
  now rewrite H.
Qed.

(** C5. The parser raises nothing, whatever [float] does: the function
    returns a list of records for every text; no exception ends the body of
    a block; a block without the pre-operative marker leaves the records as
    they are, wherever it stands among the blocks; a token whose value is
    the literal [nan] or is no number leaves the dictionary as it is, and so
    does a token on which the body raises; a well-formed token is stored.
    The sample document, one block without the marker and one well-formed
    block, gives exactly one record. *)
Theorem parser_never_raises (float_of_str : str -> option float) :
  (forall content, exists records,
     load_all_patient_abg float_of_str content = inr records) /\
  (forall block all_patients,
     snd (block_body float_of_str block all_patients) = None) /\
  (forall blocks1 block blocks2 all_patients,
     contains PRE_OP block = false ->
     fold_left (try_block float_of_str) (blocks1 ++ block :: blocks2) all_patients =
     fold_left (try_block float_of_str) (blocks1 ++ blocks2) all_patients) /\
  (forall part values val,
     token_value part = inr val ->
     val = NAN \/ float_of_str val = None ->
     try_pass (parse_part float_of_str part values) values = values) /\
  (forall part values e,
     parse_part float_of_str part values = inl e ->
     try_pass (parse_part float_of_str part values) values = values) /\
  (forall part values freq val k v,
     token_freq part = inr freq -> token_value part = inr val ->
     val <> NAN -> float_of_str freq = Some k -> float_of_str val = Some v ->
     try_pass (parse_part float_of_str part values) values = dict_set values k v) /\
  map (contains PRE_OP) (tl (re_split sample_document)) = [false; true] /\
  load_all_patient_abg FloatText.float_of_str sample_document =
  inr [mkPatient (u "ICW1_R") 25.0 [20; 30] [500; 1000]].
Proof.
  split; [|split; [|split; [|split; [|split; [|split; [|split]]]]]].
  - intros content. unfold load_all_patient_abg. eauto.
  - intros. apply block_body_ok.
  - intros b1 block b2 st H. rewrite !fold_left_app. cbn [fold_left].
    now rewrite try_block_no_marker.
  - intros part values val Hv H. rewrite parse_part_tokens, Hv.
    destruct (token_freq part) as [e|freq]; [reflexivity|]. cbn [bind].
    destruct H as [->|H].
    + reflexivity.
    + destruct (str_eqb val NAN); [reflexivity|]. cbn [negb].
      unfold py_float at 1. now rewrite H.
  - intros part values e H. now rewrite H.
  - intros part values freq val k v Hf Hv Hn Hk Hx.
    rewrite parse_part_tokens, Hf, Hv. cbn [bind].
    destruct (str_eqb val NAN) eqn:E.
    + apply str_eqb_eq in E. contradiction.
    + cbn [negb]. unfold py_float. now rewrite Hx, Hk.
  - vm_compute. reflexivity.
  - vm_compute. reflexivity.
Qed.

Lemma parser_never_raises_witness :
  try_pass (parse_part FloatText.float_of_str (u " 2kHz=nandB ") bone_example)
    bone_example = bone_example /\
  try_pass (parse_part FloatText.float_of_str (u " 4kHz=??dB ") bone_example)
    bone_example = bone_example /\
  try_pass (parse_part FloatText.float_of_str (u " 2kHz=35dB ") bone_example)
    bone_example = dict_set bone_example 2 35.
Proof.
  destruct (parser_never_raises FloatText.float_of_str)
    as (_ & _ & _ & H1 & _ & H2 & _).
  split; [|split].
  - apply (H1 _ _ NAN); [reflexivity|now left].
  - apply (H1 _ _ (u "??")); [reflexivity|now right].
  - apply (H2 _ _ (u "2") (u "35")); try reflexivity.
    intros H. vm_compute in H. discriminate.
Defined.

(** *** The group mode against the full-document parser *)

(** What a record of the full parser gives in the group mode. *)
Definition to_group (p : Patient) : GroupPatient :=
  mkGroupPatient (avg_abg p) (abg_values p).

(** The pre-operative section of a block, if it has one. *)
Definition pre_op_of (block : str) : option str :=
  match block_head block with
  | inr (Some (_, pre_op)) => Some pre_op
  | _ => None
  end.

(** A label stands on at most one line of the section. *)
Definition label_once (pre_op prefix : str) : Prop :=
  (length (filter (contains prefix) (split newline pre_op)) <= 1)%nat.

Definition labels_once (block : str) : Prop :=
  forall pre_op, pre_op_of block = Some pre_op ->
  forall side prefix_b prefix_a, In (side, prefix_b, prefix_a) sides ->
  label_once pre_op prefix_b /\ label_once pre_op prefix_a.

(** The same, as a test. *)
Definition label_once_b (pre_op prefix : str) : bool :=
  (length (filter (contains prefix) (split newline pre_op)) <=? 1)%nat.

Definition labels_once_b (block : str) : bool :=
  match pre_op_of block with
  | Some pre_op =>
      forallb
        (fun s => label_once_b pre_op (snd (fst s)) && label_once_b pre_op (snd s))
        sides
  | None => true
  end.

Lemma labels_once_b_ok (block : str) :
  labels_once_b block = true -> labels_once block.
Proof.
  unfold labels_once_b, labels_once. intros H pre_op Hp. rewrite Hp in H.
  rewrite forallb_forall in H. intros side pb pa Hin.
  specialize (H _ Hin). simpl in H. apply andb_true_iff in H.
  unfold label_once, label_once_b in *. now rewrite !Nat.leb_le in H.
Qed.

Lemma Forall_labels_once (blocks : list str) :
  forallb labels_once_b blocks = true -> Forall labels_once blocks.
Proof.
  rewrite forallb_forall, Forall_forall. intros H b Hb.
  apply labels_once_b_ok. now apply H.
Qed.

(** Token by token the two modes do the same. *)
Lemma group_part_same (fl : str -> option float) (part : str) (d : dict) :
  try_pass (group_part fl part d) d = try_pass (parse_part fl part d) d.
Proof.
  unfold group_part, parse_part.
  destruct (item (split KHZ part) 0) as [e|p0]; [reflexivity|]. cbn [bind].
  destruct (last_item (words (strip p0))) as [e|w]; [reflexivity|]. cbn [bind].
  destruct (item (split KHZ part) 1) as [e|p1]; cbn [bind].
  { now destruct (py_float fl w). }
  destruct (item (split DB p1) 0) as [e|val]; cbn [bind].
  { now destruct (py_float fl w). }
  destruct (str_eqb val NAN); cbn [negb].
  { now destruct (py_float fl w). }
  destruct (py_float fl w), (py_float fl val); reflexivity.
Qed.

Lemma group_line_fresh (fl : str -> option float) (line prefix : str) :
  contains prefix line = true ->
  group_line fl line prefix [] = parse_line fl line prefix.
Proof.
  intros H. unfold group_line, parse_line. rewrite H.
  generalize (@nil (float * float)).
  induction (split PIPE line) as [|part parts IH]; intros d; [reflexivity|].
  simpl. rewrite group_part_same. apply IH.
Qed.

Lemma group_line_skip (fl : str -> option float) (line prefix : str) (d : dict) :
  contains prefix line = false -> group_line fl line prefix d = d.
Proof. intros H. unfold group_line. now rewrite H. Qed.

(** The two loops over the lines, one dictionary at a time. *)
Definition read_label (fl : str -> option float) (prefix : str)
    (lines : list str) (d : dict) : dict :=
  fold_left
    (fun d line => if contains prefix line then parse_line fl line prefix else d)
    lines d.

Definition group_read_label (fl : str -> option float) (prefix : str)
    (lines : list str) (d : dict) : dict :=
  fold_left (fun d line => group_line fl line prefix d) lines d.

Lemma read_side_labels (fl : str -> option float) (pre_op pb pa : str) :
  read_side fl pre_op pb pa =
  (read_label fl pb (split newline pre_op) [],
   read_label fl pa (split newline pre_op) []).
Proof.
  unfold read_side, read_label.
  generalize (@nil (float * float)) at 1 3.
  generalize (@nil (float * float)).
  induction (split newline pre_op) as [|line lines IH]; intros a b;
    [reflexivity|].
  simpl. apply IH.
Qed.

Lemma group_read_side_labels (fl : str -> option float) (pre_op pb pa : str) :
  group_read_side fl pre_op pb pa =
  (group_read_label fl pb (split newline pre_op) [],
   group_read_label fl pa (split newline pre_op) []).
Proof.
  unfold group_read_side, group_read_label.
  generalize (@nil (float * float)) at 1 3.
  generalize (@nil (float * float)).
  induction (split newline pre_op) as [|line lines IH]; intros a b;
    [reflexivity|].
  simpl. apply IH.
Qed.

Lemma read_label_none (fl : str -> option float) (prefix : str)
    (lines : list str) (d : dict) :
  filter (contains prefix) lines = [] ->
  read_label fl prefix lines d = d /\ group_read_label fl prefix lines d = d.
Proof.
  unfold read_label, group_read_label.
  induction lines as [|line lines IH]; intros H; [now split|].
  simpl in H |- *. destruct (contains prefix line) eqn:E; [discriminate|].
  rewrite group_line_skip by assumption. now apply IH.
Qed.

Lemma read_label_once (fl : str -> option float) (prefix : str)
    (lines : list str) :
  (length (filter (contains prefix) lines) <= 1)%nat ->
  group_read_label fl prefix lines [] = read_label fl prefix lines [].
Proof.
  induction lines as [|line lines IH]; intros H; [reflexivity|].
  unfold read_label, group_read_label in *. simpl in H |- *.
  destruct (contains prefix line) eqn:E.
  - simpl in H.
    assert (Hn : filter (contains prefix) lines = []).
    { destruct (filter (contains prefix) lines); [reflexivity|simpl in H; lia]. }
    rewrite group_line_fresh by assumption.
    destruct (read_label_none fl prefix lines (parse_line fl line prefix) Hn)
      as [H1 H2].
    unfold read_label, group_read_label in H1, H2. now rewrite H1, H2.
  - rewrite group_line_skip by assumption. now apply IH.
Qed.

Lemma group_abg_common (bone air : dict) (fs : list float) :
  group_abg fs bone air = inr (map snd (common bone air fs)).
Proof.
  induction fs as [|f fs IH]; [reflexivity|]. simpl.
  unfold dict_mem, getitem.
  destruct (dict_get bone f) as [b|], (dict_get air f) as [a|]; simpl;
    rewrite IH; reflexivity.
Qed.

Lemma group_side_record_eq (bone air : dict) (patients : list GroupPatient) :
  group_side_record bone air patients =
  inr (if truthy (common_abg bone air)
       then patients ++
            [mkGroupPatient (Np.mean (common_abg bone air)) (common_abg bone air)]
       else patients).
Proof.
  unfold group_side_record, common_abg.
  rewrite group_abg_common. cbn [bind].
  destruct (truthy bone && truthy air) eqn:E;
    [now destruct (truthy (map snd (common bone air canonical_freqs)))|].
  assert (H : common bone air canonical_freqs = []).
  { destruct bone; [apply common_nil_l|].
    destruct air; [apply common_nil_r|discriminate]. }
  now rewrite H.
Qed.

Lemma for_sides_same (fl : str -> option float) (pre_op : str)
    (ss : list (str * str * str)) :
  (forall side pb pa, In (side, pb, pa) ss ->
     label_once pre_op pb /\ label_once pre_op pa) ->
  forall patient_id all_patients,
    fst (group_for_sides fl ss pre_op (map to_group all_patients)) =
    map to_group (fst (for_sides fl ss patient_id pre_op all_patients)).
Proof.
  induction ss as [|[[side pb] pa] ss IH]; intros H pid st; [reflexivity|].
  cbn [for_sides group_for_sides].
  rewrite read_side_labels, group_read_side_labels.
  destruct (H side pb pa (or_introl eq_refl)) as [Hb Ha].
  rewrite (read_label_once fl pb _ Hb), (read_label_once fl pa _ Ha).
  rewrite side_record_eq, group_side_record_eq.
  set (bone := read_label fl pb (split newline pre_op) []).
  set (air := read_label fl pa (split newline pre_op) []).
  destruct (truthy (common_abg bone air)).
  - rewrite <- (IH (fun s b a Hin => H s b a (or_intror Hin)) pid).
    now rewrite map_app.
  - apply IH. intros s b a Hin. apply (H s). now right.
Qed.

Lemma group_block_head_eq (block : str) :
  group_block_head block =
  match block_head block with
  | inl e => inl e
  | inr None => inr None
  | inr (Some (_, pre_op)) => inr (Some pre_op)
  end.
Proof.
  unfold group_block_head, block_head.
  destruct (item_split_0 ID_END block) as (pid & ->). cbn [bind].
  destruct (contains PRE_OP block); cbn [negb]; [|reflexivity].
  destruct (item (split PRE_OP block) 1) as [e|p1]; [reflexivity|]. cbn [bind].
  destruct (item (split SECTION_END p1) 0); reflexivity.
Qed.

Lemma try_block_same (fl : str -> option float) (block : str)
    (all_patients : list Patient) :
  labels_once block ->
  group_try_block fl (map to_group all_patients) block =
  map to_group (try_block fl all_patients block).
Proof.
  intros H. unfold group_try_block, try_block, group_block_body, block_body.
  rewrite group_block_head_eq.
  unfold labels_once, pre_op_of in H.
  destruct (block_head block) as [e|[[pid pre_op]|]]; try reflexivity.
  apply for_sides_same. intros side pb pa Hin. now apply (H pre_op eq_refl side).
Qed.

Lemma blocks_same (fl : str -> option float) (blocks : list str) :
  Forall labels_once blocks ->
  forall all_patients,
    fold_left (group_try_block fl) blocks (map to_group all_patients) =
    map to_group (fold_left (try_block fl) blocks all_patients).
Proof.
  induction 1 as [|block blocks Hb _ IH]; intros st; [reflexivity|].
  simpl. rewrite try_block_same by assumption. apply IH.
Qed.

(** *** The two sections of a document *)

Lemma ICW_chars : ICW = [12304; 32; 73; 67; 87]%N.
Proof. reflexivity. Qed.

Lemma CWD_chars : CWD = [12304; 32; 67; 87; 68]%N.
Proof. reflexivity. Qed.

Lemma ICW_nonempty : ICW <> [].
Proof. rewrite ICW_chars. discriminate. Qed.

Lemma CWD_nonempty : CWD <> [].
Proof. rewrite CWD_chars. discriminate. Qed.

(** A prefix that reaches past an occurrence contains it. *)
Lemma prefix_cover (x t b m r : str) :
  x ++ t = b ++ m ++ r -> (length b + length m <= length x)%nat ->
  exists x', x = b ++ m ++ x'.
Proof.
  intros H Hlen. rewrite app_assoc in H.
  apply app_eq_app in H. destruct H as (l & [[H _]|[H _]]).
  - exists l. now rewrite app_assoc.
  - assert (Hl : l = []).
    { apply (f_equal (@length _)) in H. rewrite !length_app in H.
      destruct l; [reflexivity|simpl in H; lia]. }
    subst l. rewrite app_nil_r in H. exists []. now rewrite app_nil_r.
Qed.

Lemma prefix_of_shorter (x t b r : str) :
  x ++ t = b ++ r -> (length x <= length b)%nat -> exists t1, b = x ++ t1.
Proof.
  intros H Hlen. apply app_eq_app in H. destruct H as (l & [[H _]|[H _]]).
  - assert (Hl : l = []).
    { apply (f_equal (@length _)) in H. rewrite length_app in H.
      destruct l; [reflexivity|simpl in H; lia]. }
    subst l. exists []. now rewrite app_nil_r in *.
  - eauto.
Qed.

(** The heading of one group does not start inside the heading of the other. *)
Lemma headings_do_not_overlap (x r b r2 : str) :
  x ++ ICW ++ r = b ++ CWD ++ r2 ->
  (length b < length x)%nat -> (length b + length CWD <= length x)%nat.
Proof.
  intros H Hlt.
  destruct (Nat.le_gt_cases (length b + length CWD) (length x)) as [|Hgt];
    [assumption|exfalso].
  assert (H1 : nth_error (x ++ ICW ++ r) (length x) = Some 12304%N).
  { rewrite nth_error_app2, Nat.sub_diag by lia. reflexivity. }
  rewrite H in H1. rewrite nth_error_app2 in H1 by lia.
  rewrite nth_error_app1 in H1 by lia.
  rewrite CWD_chars in *. simpl in Hgt.
  remember (length x - length b)%nat as k eqn:Hk.
  destruct k as [|[|[|[|[|k]]]]]; try lia; discriminate.
Qed.

(** When the first ICW heading stands before the first CWD heading, the
    ICW section lies between the two headings and the CWD section after
    the second. *)
Lemma sections_separate (content pre r1 b1 r2 : str) :
  find ICW content = Some (pre, r1) ->
  find CWD content = Some (pre ++ ICW ++ b1, r2) ->
  exists s1 t1 s2 t2,
    icw_section content = inr s1 /\ cwd_section content = inr s2 /\
    b1 = s1 ++ t1 /\ r2 = s2 ++ t2.
Proof.
  intros H1 H2.
  pose proof (find_spec _ _ _ _ H1) as E1.
  pose proof (find_spec _ _ _ _ H2) as E2.
  assert (Hr1 : r1 = b1 ++ CWD ++ r2).
  { rewrite E1 in E2. rewrite <- !app_assoc in E2.
    apply app_inv_head in E2. now apply app_inv_head in E2. }
  assert (F : find CWD r1 = Some (b1, r2)).
  { apply find_app_skip with (p := pre ++ ICW).
    rewrite <- !app_assoc, <- E1. exact H2. }
  assert (Hc : contains CWD content = true).
  { unfold contains. now rewrite H2. }
  set (x := hd_piece ICW r1).
  destruct (hd_piece_prefix ICW r1) as (t & Hx). fold x in Hx.
  destruct (hd_piece_prefix CWD r2) as (t2 & Ht2).
  assert (Hs1 : exists t1, b1 = hd_piece CWD x ++ t1).
  { unfold hd_piece at 1. destruct (find CWD x) as [[a r']|] eqn:Fx.
    - pose proof (find_spec _ _ _ _ Fx) as Ex.
      assert (Hab : (length b1 <= length a)%nat).
      { apply (find_first _ _ _ _ F a (r' ++ t)).
        rewrite Hx, Ex, <- !app_assoc. reflexivity. }
      assert (Hcov : exists x', x = b1 ++ CWD ++ x').
      { apply prefix_cover with (t := t) (r := r2).
        - rewrite <- Hx. exact Hr1.
        - rewrite Ex, !length_app. lia. }
      destruct Hcov as (x' & Hx').
      pose proof (find_first _ _ _ _ Fx b1 x' Hx') as Hba.
      apply prefix_of_shorter with (t := CWD ++ r' ++ t) (r := CWD ++ r2);
        [|exact Hba].
      rewrite <- Hr1, Hx, Ex, <- !app_assoc. reflexivity.
    - destruct (Nat.le_gt_cases (length x) (length b1)) as [Hle|Hgt].
      + apply prefix_of_shorter with (t := t) (r := CWD ++ r2); [|exact Hle].
        now rewrite <- Hx, <- Hr1.
      + exfalso.
        assert (Hcov : (length b1 + length CWD <= length x)%nat).
        { unfold x, hd_piece in *. destruct (find ICW r1) as [[a r'']|] eqn:Fi.
          - apply find_spec in Fi.
            apply headings_do_not_overlap with (r := r'') (r2 := r2); [|exact Hgt].
            now rewrite <- Fi, <- Hr1.
          - rewrite Hr1, !length_app. lia. }
        destruct (prefix_cover x t b1 CWD r2) as (x' & Hx'); auto.
        { now rewrite <- Hx, <- Hr1. }
        destruct (find_complete CWD x b1 x' Hx') as (a & r' & Fa). congruence. }
  destruct Hs1 as (t1 & Ht1).
  exists (hd_piece CWD x), t1, (hd_piece CWD r2), t2.
  repeat split; auto.
  - unfold icw_section. rewrite Hc.
    rewrite (item_split_1_eq ICW content pre r1 ICW_nonempty H1). cbn [bind].
    apply item_split_0_eq, CWD_nonempty.
  - unfold cwd_section.
    apply (item_split_1_eq CWD content _ r2 CWD_nonempty H2).
Qed.

(** C9, as the code has it.  The group mode parses, block by block, the
    text of each of the two sections.  Its extraction gives the same gap
    values and the same mean as the full-document parser on every block in
    which each bone and air label stands on at most one line of the
    pre-operative section.  When the first ICW heading stands before the
    first CWD heading, the ICW section lies between the two headings and
    the CWD section after the second one, so the two record lists come from
    separate parts of the document. *)
Theorem group_mode_extraction (float_of_str : str -> option float) :
  (forall section,
     Forall labels_once (tl (re_split section)) ->
     parse_section float_of_str section =
     map to_group (fold_left (try_block float_of_str) (tl (re_split section)) [])) /\
  (forall content pre r1 b1 r2,
     find ICW content = Some (pre, r1) ->
     find CWD content = Some (pre ++ ICW ++ b1, r2) ->
     exists s1 t1 s2 t2,
       content = pre ++ ICW ++ (s1 ++ t1) ++ CWD ++ (s2 ++ t2) /\
       load_patient_by_group float_of_str content =
       inr (parse_section float_of_str s1, parse_section float_of_str s2)).
Proof.
  split.
  - intros section H. unfold parse_section.
    exact (blocks_same float_of_str _ H []).
  - intros content pre r1 b1 r2 H1 H2.
    destruct (sections_separate content pre r1 b1 r2 H1 H2)
      as (s1 & t1 & s2 & t2 & Hi & Hc & Hb & Hr).
    exists s1, t1, s2, t2. split.
    + rewrite <- Hb, <- Hr. apply find_spec in H2.
      rewrite H2, <- !app_assoc. reflexivity.
    + unfold load_patient_by_group, contains. rewrite H1, H2, Hi, Hc.
      reflexivity.
Qed.

Lemma group_mode_extraction_witness :
  parse_section FloatText.float_of_str grouped_document =
  map to_group
    (fold_left (try_block FloatText.float_of_str)
       (tl (re_split grouped_document)) []) /\
  exists s1 t1 s2 t2,
    grouped_document = [] ++ ICW ++ (s1 ++ t1) ++ CWD ++ (s2 ++ t2) /\
    load_patient_by_group FloatText.float_of_str grouped_document =
    inr (parse_section FloatText.float_of_str s1,
         parse_section FloatText.float_of_str s2).
Proof.
  destruct (group_mode_extraction FloatText.float_of_str) as [HA HB].
  split.
  - apply HA. apply Forall_labels_once. vm_compute. reflexivity.
  - apply (HB grouped_document [] (skipn 5 grouped_document)
             (firstn 114 (skipn 5 grouped_document))
             (skipn 124 grouped_document)); vm_compute; reflexivity.
Defined.

(** C9, as stated, fails on two counts.  With the CWD heading first, the
    only patient block of the document gives a record to both groups.  And
    with a label on two lines, the group mode merges the lines where the
    full parser keeps the last one: the gap values differ. *)
Lemma group_sets_overlap :
  length (tl (re_split reversed_document)) = 1%nat /\
  load_patient_by_group FloatText.float_of_str reversed_document =
  inr ([mkGroupPatient 25 [20; 30]], [mkGroupPatient 25 [20; 30]]) /\
  (exists icw cwd r,
     load_patient_by_group FloatText.float_of_str reversed_document =
     inr (icw, cwd) /\ In r icw /\ In r cwd) /\
  load_patient_by_group FloatText.float_of_str repeated_label_document =
  inr ([mkGroupPatient 25 [20; 30]], []) /\
  load_all_patient_abg FloatText.float_of_str repeated_label_document =
  inr [mkPatient (u "ICW3_R") 30 [30] [1000]].
Proof.
  split; [vm_compute; reflexivity|].
  split; [vm_compute; reflexivity|].
  split.
  - exists [mkGroupPatient 25 [20; 30]], [mkGroupPatient 25 [20; 30]],
      (mkGroupPatient 25 [20; 30]).
    split; [vm_compute; reflexivity|]. split; now left.
  - split; vm_compute; reflexivity.
Qed.

End Parser.

(** ** The grids behind the figures

    The heat maps of figures 2 and 7, the error map of figure 3 with its
    marker, and the values figures 3b, 3c and 5b read off the best
    positions.  Only what is computed is modelled, not what is drawn. *)

Module Plot.

Import Py Sim.

(** A two-dimensional array, row by row. *)
Definition matrix := list (list float).

(** [np.zeros((r, c))] *)
Definition zeros (r c : nat) : matrix := repeat (repeat 0 c) r.

Fixpoint set_nth {A : Type} (l : list A) (i : nat) (v : A) : list A :=
  match l, i with
  | [], _ => []
  | _ :: l', O => v :: l'
  | x :: l', S i' => x :: set_nth l' i' v
  end.

(** [a[r, c] = v] for indices that are not negative; an index past the end
    raises. *)
Definition setitem2 (a : matrix) (r c : nat) (v : float) : result matrix :=
  match nth_error a r with
  | Some row =>
      if (c <? length row)%nat then ret (set_nth a r (set_nth row c v))
      else raise IndexError
  | None => raise IndexError
  end.

(** [for x in xs: body], where the body may raise. *)
Fixpoint for_each {A S : Type} (xs : list A) (body : A -> S -> result S)
    (s : S) : result S :=
  match xs with
  | [] => ret s
  | x :: xs' => s' <- body x s ;; for_each xs' body s'
  end.

(** [enumerate(l)] *)
Definition enumerate {A : Type} (l : list A) : list (nat * A) :=
  combine (seq 0 (length l)) l.

(** Lines 245-251 (and 740-745): the heat map of a grade.  In the loops
    [i < len(positions)], so the row index [len(positions)-1-i] is never
    negative. *)
Definition heatmap (gd : DataFrame) : result matrix :=
  let positions := positions gd in
  let heatmap_data := zeros (length positions) (length positions) in
  for_each (enumerate positions)
    (fun '(i, py) heatmap_data =>
       for_each (enumerate positions)
         (fun '(j, px) heatmap_data =>
            let val := Pandas.mean (map AvgTotal (cell_rows gd px py)) in
            setitem2 heatmap_data (length positions - 1 - i) j val)
         heatmap_data)
    heatmap_data.

(** Lines 297-311 in full: the error map is filled while the best position
    is searched. *)
Definition error_map_loop (gd : DataFrame) (clinical_target : float)
    : result (matrix * BestPos) :=
  let positions := positions gd in
  let error_map := zeros (length positions) (length positions) in
  for_each (enumerate positions)
    (fun '(i, py) st =>
       for_each (enumerate positions)
         (fun '(j, px) st =>
            let sim_val := Pandas.mean (map AvgTotal (cell_rows gd px py)) in
            let error := abs (sim_val - clinical_target) in
            error_map <- setitem2 (fst st) (length positions - 1 - i) j error ;;
            ret (error_map,
                 if error <? min_error (snd st) then mkBest error (px, py)
                 else snd st))
         st)
    (error_map, init).

(** [l.index(x)]: the first position whose value equals [x]. *)
Fixpoint index_of (l : list float) (x : float) : result nat :=
  match l with
  | [] => raise ValueError
  | y :: l' => if y =? x then ret O else k <- index_of l' x ;; ret (S k)
  end.

(** Lines 319-320: where the star is drawn, [(best_i, best_j)]. *)
Definition marker (positions : list float) (best_pos : float * float)
    : result (nat * nat) :=
  best_j <- index_of positions (fst best_pos) ;;
  k <- index_of positions (snd best_pos) ;;
  ret (length positions - 1 - k, best_j)%nat.

(** Figure 3 for one grade, up to the marker. *)
Definition fig3_grade (gd : DataFrame) (clinical_target : float)
    : result (matrix * BestPos * (nat * nat)) :=
  st <- error_map_loop gd clinical_target ;;
  m <- marker (positions gd) (best_pos (snd st)) ;;
  ret (fst st, snd st, m).

(** Lines 436-440 and 507: the simulated value at the best position of a
    grade, and its signed error against the clinical mean. *)
Definition best_sim_value (df : DataFrame) (g : grade) : float :=
  let best_pos := best_pos (best_positions df g) in
  let g_data := g_data df g in
  Pandas.mean
    (map AvgTotal
       (filter (fun r => (PosX r =? fst best_pos) && (PosY r =? snd best_pos))
          g_data)).

Definition best_error (df : DataFrame) (g : grade) : float :=
  best_sim_value df g - avg_abg (patient_freq_abg g).

(** Lines 632-642: the rows figure 5b averages, with the fallback to the
    whole grade. *)
Definition fig5b_rows (df : DataFrame) (g : grade) : DataFrame :=
  let best_pos := best_pos (best_positions df g) in
  let sim_data :=
    filter
      (fun r => (Grade r =? grade_num g)%Z && (PosX r =? fst best_pos)
                && (PosY r =? snd best_pos))
      (df_perf df) in
  if (0 <? length sim_data)%nat then sim_data else g_data df g.

(** *** Writing into arrays *)

Lemma length_set_nth {A : Type} (l : list A) : forall i v,
  length (set_nth l i v) = length l.
Proof.
  induction l as [|x l IH]; intros [|i] v; simpl; auto.
Qed.

Lemma set_nth_same {A : Type} (l : list A) : forall i x,
  nth_error l i = Some x -> set_nth l i x = l.
Proof.
  induction l as [|y l IH]; intros [|i] x; simpl; try discriminate.
  - congruence.
  - intros H. f_equal. now apply IH.
Qed.

Lemma set_nth_twice {A : Type} (l : list A) : forall i v w,
  set_nth (set_nth l i v) i w = set_nth l i w.
Proof.
  induction l as [|y l IH]; intros [|i] v w; simpl; auto. now rewrite IH.
Qed.

Lemma nth_error_set_nth {A : Type} (l : list A) : forall i v,
  (i < length l)%nat -> nth_error (set_nth l i v) i = Some v.
Proof.
  induction l as [|y l IH]; intros [|i] v; simpl; try lia; auto.
  intros H. apply IH. lia.
Qed.

Lemma nth_error_set_nth_other {A : Type} (l : list A) : forall i k v,
  k <> i -> nth_error (set_nth l i v) k = nth_error l k.
Proof.
  induction l as [|y l IH]; intros [|i] [|k] v H; simpl; auto; try congruence.
Qed.

Lemma firstn_set_nth {A : Type} (l : list A) : forall i v,
  (i < length l)%nat -> firstn (S i) (set_nth l i v) = firstn i l ++ [v].
Proof.
  induction l as [|y l IH]; intros [|i] v H; simpl in *; try lia; auto.
  f_equal. apply IH. lia.
Qed.

Lemma skipn_set_nth {A : Type} (l : list A) : forall i v,
  (i < length l)%nat -> skipn i (set_nth l i v) = v :: skipn (S i) l.
Proof.
  induction l as [|y l IH]; intros [|i] v H; simpl in *; try lia; auto.
  apply IH. lia.
Qed.

Lemma for_each_ext {A S : Type} (f g : A -> S -> result S) (xs : list A) :
  (forall x s, f x s = g x s) ->
  forall s, for_each xs f s = for_each xs g s.
Proof.
  intros H. induction xs as [|x xs IH]; intros s; [reflexivity|].
  simpl. rewrite H. destruct (g x s); simpl; auto.
Qed.

(** A loop over a pair of an array and a second state, when the second
    state does not influence the array. *)
Lemma for_each_split {A M S : Type} (f : A -> M -> result M) (h : S -> A -> S)
    (xs : list A) :
  forall a s,
    for_each xs (fun x st => a' <- f x (fst st) ;; ret (a', h (snd st) x)) (a, s)
    = (a' <- for_each xs f a ;; ret (a', fold_left h xs s)).
Proof.
  induction xs as [|x xs IH]; intros a s; [reflexivity|].
  simpl. destruct (f x a) as [e|a1]; [reflexivity|]. simpl. apply IH.
Qed.

Lemma fold_left_enumerate {A S : Type} (h : S -> A -> S) (l : list A) :
  forall k s,
    fold_left (fun s p => h s (snd p)) (combine (seq k (length l)) l) s
    = fold_left h l s.
Proof.
  induction l as [|x l IH]; intros k s; [reflexivity|]. simpl. apply IH.
Qed.

(** One row filled from left to right. *)
Lemma fill_row (g : float -> float) (r : nat) (qs : list float) :
  forall j0 a row,
    nth_error a r = Some row -> length row = (j0 + length qs)%nat ->
    for_each (combine (seq j0 (length qs)) qs)
      (fun '(j, px) a => setitem2 a r j (g px)) a
    = inr (set_nth a r (firstn j0 row ++ map g qs)).
Proof.
  induction qs as [|q qs IH]; intros j0 a row Hr Hlen; simpl.
  - rewrite app_nil_r. simpl in Hlen. rewrite Nat.add_0_r in Hlen.
    rewrite <- Hlen, firstn_all. now rewrite set_nth_same.
  - simpl in Hlen. unfold setitem2 at 1. rewrite Hr.
    destruct (j0 <? length row)%nat eqn:E; [|apply Nat.ltb_ge in E; lia].
    apply Nat.ltb_lt in E. cbn [bind ret].
    assert (Hra : (r < length a)%nat).
    { apply nth_error_Some. congruence. }
    rewrite (IH (S j0) _ (set_nth row j0 (g q))).
    + rewrite set_nth_twice, firstn_set_nth by assumption.
      now rewrite <- app_assoc.
    + now apply nth_error_set_nth.
    + rewrite length_set_nth. lia.
Qed.

(** The rows filled from the last one up. *)
Lemma fill_rows (cell : float -> float -> float) (ps : list float) (n : nat)
    (qs : list float) :
  forall i0 a,
    n = (i0 + length qs)%nat -> length a = n ->
    Forall (fun row => length row = length ps) a ->
    for_each (combine (seq i0 (length qs)) qs)
      (fun '(i, py) a =>
         for_each (enumerate ps)
           (fun '(j, px) a => setitem2 a (n - 1 - i) j (cell px py)) a)
      a
    = inr (rev (map (fun py => map (fun px => cell px py) ps) qs)
           ++ skipn (length qs) a).
Proof.
  induction qs as [|q qs IH]; intros i0 a Hn Ha Hrows; [reflexivity|].
  cbn [length seq combine for_each]. simpl in Hn.
  assert (Hr : (n - 1 - i0 = length qs)%nat) by lia.
  assert (Hlt : (length qs < length a)%nat) by lia.
  destruct (nth_error a (length qs)) as [row|] eqn:Erow;
    [|apply nth_error_None in Erow; lia].
  assert (Hrow : length row = length ps).
  { rewrite Forall_forall in Hrows. apply Hrows. eapply nth_error_In; eauto. }
  unfold enumerate. rewrite Hr.
  rewrite (fill_row (fun px => cell px q) (length qs) ps 0 a row Erow)
    by (simpl; exact Hrow).
  cbn [bind firstn app].
  rewrite (IH (S i0)).
  - rewrite skipn_set_nth by assumption. cbn [map rev].
    now rewrite <- app_assoc.
  - lia.
  - rewrite length_set_nth. lia.
  - apply Forall_forall. intros x Hx.
    apply In_nth_error in Hx. destruct Hx as (k & Hk).
    destruct (Nat.eq_dec k (length qs)) as [->|Hne].
    + rewrite nth_error_set_nth in Hk by assumption.
      injection Hk as <-. now rewrite length_map.
    + rewrite nth_error_set_nth_other in Hk by assumption.
      rewrite Forall_forall in Hrows. apply Hrows. eapply nth_error_In; eauto.
Qed.

Lemma length_zeros (r c : nat) : length (zeros r c) = r.
Proof. apply repeat_length. Qed.

Lemma zeros_rows (r c : nat) :
  Forall (fun row => length row = c) (zeros r c).
Proof.
  apply Forall_forall. intros row H. apply repeat_spec in H.
  subst. apply repeat_length.
Qed.

(** A square grid filled by the two loops. *)
Lemma fill_grid (cell : float -> float -> float) (ps : list float) :
  for_each (enumerate ps)
    (fun '(i, py) a =>
       for_each (enumerate ps)
         (fun '(j, px) a => setitem2 a (length ps - 1 - i) j (cell px py)) a)
    (zeros (length ps) (length ps))
  = inr (map (fun py => map (fun px => cell px py) ps) (rev ps)).
Proof.
  unfold enumerate at 1.
  rewrite (fill_rows cell ps (length ps) ps 0);
    auto using length_zeros, zeros_rows.
  rewrite skipn_all2 by (rewrite length_zeros; lia).
  now rewrite app_nil_r, map_rev.
Qed.

(** *** The heat map and the error map *)

(** X1. The heat map of a grade is filled without an exception; its rows
    run over the positions in descending order of Y (the Y axis is flipped),
    its columns in ascending order of X, and each entry is the mean of its
    cell. *)
Theorem heatmap_grid (gd : DataFrame) :
  heatmap gd =
  inr (map (fun py => map (fun px => sim_val gd px py) (positions gd))
         (rev (positions gd))).
Proof.
  exact (fill_grid (fun px py => sim_val gd px py) (positions gd)).
Qed.

Lemma error_map_inner (gd : DataFrame) (t : float) (ps : list float)
    (r : nat) (py : float) (st : matrix * BestPos) :
  for_each (enumerate ps)
    (fun '(j, px) st =>
       let sim_val := Pandas.mean (map AvgTotal (cell_rows gd px py)) in
       let error := abs (sim_val - t) in
       error_map <- setitem2 (fst st) r j error ;;
       ret (error_map,
            if error <? min_error (snd st) then mkBest error (px, py)
            else snd st))
    st
  = (a' <- for_each (enumerate ps)
             (fun '(j, px) a => setitem2 a r j (error_at gd t (px, py)))
             (fst st) ;;
     ret (a', fold_left (visit gd t py) ps (snd st))).
Proof.
  destruct st as [a s]. cbn [fst snd]. unfold enumerate.
  set (xs := combine (seq 0 (length ps)) ps).
  transitivity
    (a' <- for_each xs
             (fun p a => setitem2 a r (fst p) (error_at gd t (snd p, py))) a ;;
     ret (a', fold_left (fun s p => visit gd t py s (snd p)) xs s)).
  - rewrite <- (for_each_split
                  (fun p a => setitem2 a r (fst p) (error_at gd t (snd p, py)))
                  (fun s p => visit gd t py s (snd p))).
    apply for_each_ext. intros [j px] st. reflexivity.
  - unfold xs. rewrite fold_left_enumerate. f_equal.
    apply for_each_ext. intros [j px] a0. reflexivity.
Qed.

(** X2. The loop of figure 3 raises nothing.  It returns the error map,
    whose rows run over the positions in descending Y and whose entries are
    the errors of the cells, together with the best position and error of
    the search. *)
Theorem error_map_loop_result (gd : DataFrame) (clinical_target : float) :
  error_map_loop gd clinical_target =
  inr (map (fun py =>
              map (fun px => error_at gd clinical_target (px, py)) (positions gd))
         (rev (positions gd)),
       search gd clinical_target).
Proof.
  unfold error_map_loop. cbv zeta.
  set (ps := positions gd). set (t := clinical_target).
  pose (F := fun (p : nat * float) (a : matrix) =>
               for_each (enumerate ps)
                 (fun '(j, px) a =>
                    setitem2 a (length ps - 1 - fst p) j
                      (error_at gd t (px, snd p))) a).
  pose (H := fun (s : BestPos) (p : nat * float) =>
               fold_left (visit gd t (snd p)) ps s).
  transitivity
    (a' <- for_each (enumerate ps) F (zeros (length ps) (length ps)) ;;
     ret (a', fold_left H (enumerate ps) init)).
  - rewrite <- (for_each_split F H).
    apply for_each_ext. intros [i py] st. apply error_map_inner.
  - assert (E : for_each (enumerate ps) F (zeros (length ps) (length ps))
                = inr (map (fun py => map (fun px => error_at gd t (px, py)) ps)
                         (rev ps))).
    { rewrite <- (fill_grid (fun px py => error_at gd t (px, py)) ps).
      apply for_each_ext. intros [i py] a. reflexivity. }
    rewrite E. unfold bind, ret. do 2 f_equal.
    unfold enumerate, H.
    apply (fold_left_enumerate (fun s py => fold_left (visit gd t py) ps s)
             ps 0 init).
Qed.

(** *** The marker *)

Lemma index_of_sorted (ps : list float) :
  StronglySorted Pandas.lt ps -> Forall Pandas.number ps ->
  forall k x, nth_error ps k = Some x -> index_of ps x = inr k.
Proof.
  induction 1 as [|a l Hs IH Ha]; intros Hn k x Hk.
  - destruct k; discriminate.
  - inversion Hn; subst. destruct k as [|k]; simpl in Hk |- *.
    + injection Hk as <-. now rewrite F64.eqb_refl.
    + assert (Hlt : (a <? x) = true).
      { rewrite Forall_forall in Ha. apply Ha. eapply nth_error_In; eauto. }
      destruct (a =? x) eqn:E.
      * rewrite (F64.eqb_ltb_false _ _ E) in Hlt. discriminate.
      * rewrite (IH H2 k x Hk). reflexivity.
Qed.

Lemma index_of_absent (ps : list float) (x : float) :
  Forall (fun p => (p =? x) = false) ps -> index_of ps x = inl ValueError.
Proof.
  induction 1 as [|p ps Hp _ IH]; [reflexivity|].
  simpl. now rewrite Hp, IH.
Qed.

Lemma positions_numbers (gd : DataFrame) :
  Forall (fun row => is_nan (PosX row) = false) gd ->
  Forall Pandas.number (positions gd).
Proof.
  intros H. apply Forall_forall. intros p Hp.
  apply positions_from_PosX in Hp. destruct Hp as (row & Hrow & <-).
  rewrite Forall_forall in H. now apply H.
Qed.

(** X3. When no [PosX] is NaN and the search has selected a cell, the
    marker is found, and the entry of the error map under it is the error
    the search returns. *)
Theorem marker_on_least_error (gd : DataFrame) (clinical_target : float) :
  Forall (fun row => is_nan (PosX row) = false) gd ->
  search gd clinical_target <> init ->
  exists error_map best_i best_j row,
    fig3_grade gd clinical_target =
    inr (error_map, search gd clinical_target, (best_i, best_j)) /\
    nth_error error_map best_i = Some row /\
    nth_error row best_j = Some (min_error (search gd clinical_target)).
Proof.
  intros Hn Hsel. unfold fig3_grade. rewrite error_map_loop_result.
  cbn [bind fst snd].
  destruct (search_result_cases gd clinical_target)
    as [H|(pre & post & Hcs & He & _ & _)]; [contradiction|].
  set (r := search gd clinical_target) in *.
  set (ps := positions gd) in *.
  assert (Hin : In (best_pos r) (scan_order ps)).
  { rewrite Hcs. apply in_elt. }
  destruct (best_pos r) as [px py] eqn:Ebp.
  apply In_scan_order in Hin. destruct Hin as [Hx Hy].
  apply In_nth_error in Hx. destruct Hx as (kx & Hkx).
  apply In_nth_error in Hy. destruct Hy as (ky & Hky).
  pose proof (positions_ascending gd Hn) as Hs.
  pose proof (positions_numbers gd Hn) as Hnum.
  fold ps in Hs, Hnum.
  unfold marker. cbn [fst snd].
  rewrite (index_of_sorted ps Hs Hnum kx px Hkx),
          (index_of_sorted ps Hs Hnum ky py Hky).
  cbn [bind ret].
  assert (Hlt : (ky < length ps)%nat).
  { apply nth_error_Some. congruence. }
  eexists _, _, _, _. split; [reflexivity|]. split.
  - rewrite nth_error_map, nth_error_rev.
    destruct (length ps - 1 - ky <? length ps)%nat eqn:E;
      [|apply Nat.ltb_ge in E; lia].
    replace (length ps - S (length ps - 1 - ky))%nat with ky by lia.
    rewrite Hky. reflexivity.
  - rewrite nth_error_map, Hkx. simpl. now rewrite He.
Qed.

Lemma marker_on_least_error_witness :
  exists error_map best_i best_j row,
    fig3_grade scenario_rows 20.8 =
    inr (error_map, search scenario_rows 20.8, (best_i, best_j)) /\
    nth_error error_map best_i = Some row /\
    nth_error row best_j = Some (min_error (search scenario_rows 20.8)).
Proof.
  apply (marker_on_least_error scenario_rows 20.8).
  - repeat constructor.
  - intros H. apply (f_equal (fun b => fst (best_pos b) =? 1)) in H.
    vm_compute in H. discriminate.
Defined.

(** X4. When every scanned cell is undefined and 0.5 is no position of the
    grade (as for a grade without rows), the search keeps its default
    position, and looking it up among the positions raises [ValueError]:
    figure 3 fails for that grade. *)
Theorem marker_fails_on_default (gd : DataFrame) (clinical_target : float) :
  Forall (fun c => is_nan (sim_val gd (fst c) (snd c)) = true)
    (scan_order (positions gd)) ->
  Forall (fun p => (p =? 0.5) = false) (positions gd) ->
  fig3_grade gd clinical_target = inl ValueError.
Proof.
  intros Hnan Habs. unfold fig3_grade. rewrite error_map_loop_result.
  cbn [bind fst snd].
  assert (E : search gd clinical_target = init).
  { rewrite search_scan. apply run_all_nan.
    eapply Forall_impl; [|exact Hnan]. intros c Hc. now apply error_nan. }
  rewrite E. unfold marker. cbn [init best_pos fst].
  now rewrite index_of_absent.
Qed.

Lemma marker_fails_on_default_witness :
  fig3_grade [] 10 = inl ValueError /\
  fig3_grade (g_data [lone_row] G1) 10 = inl ValueError.
Proof.
  split.
  - apply (marker_fails_on_default [] 10); constructor.
  - apply (marker_fails_on_default (g_data [lone_row] G1) 10);
      repeat constructor.
Defined.

(** *** What the later figures read off the best positions *)

(** X5. For every grade, unless the search kept its initial state, the
    magnitude of the signed error at the best position (figure 3c) is the
    error the search returned; and when no row lies at the best position,
    the simulated value there is undefined. *)
Theorem best_error_magnitude (df : DataFrame) (g : grade) :
  (best_positions df g = init \/
   abs (best_error df g) = min_error (best_positions df g)) /\
  (cell_rows (g_data df g) (fst (best_pos (best_positions df g)))
     (snd (best_pos (best_positions df g))) = [] ->
   is_nan (best_sim_value df g) = true /\ is_nan (best_error df g) = true).
Proof.
  split.
  - unfold best_positions.
    destruct (search_result_cases (g_data df g) (avg_abg (patient_freq_abg g)))
      as [H|(pre & post & _ & He & _ & _)]; [now left|right].
    rewrite He. reflexivity.
  - intros H.
    assert (E : is_nan (best_sim_value df g) = true).
    { unfold best_sim_value. cbv zeta. fold (cell_rows (g_data df g)
        (fst (best_pos (best_positions df g)))
        (snd (best_pos (best_positions df g)))).
      rewrite H. reflexivity. }
    split; [exact E|]. unfold best_error. now apply F64.is_nan_sub_l.
Qed.

Lemma best_error_magnitude_witness :
  is_nan (best_sim_value [lone_row] G1) = true /\
  is_nan (best_error [lone_row] G1) = true.
Proof.
  destruct (best_error_magnitude [lone_row] G1) as [_ H].
  apply H. reflexivity.
Defined.

Lemma filter_and {A : Type} (f g : A -> bool) (l : list A) :
  filter (fun x => f x && g x) l = filter g (filter f l).
Proof.
  induction l as [|x l IH]; [reflexivity|]. simpl.
  destruct (f x); simpl; [destruct (g x)|]; now rewrite IH.
Qed.

(** X6. The rows figure 5b averages are the rows of the best cell of the
    grade whenever that cell has rows, which is the case as soon as the
    search has selected a cell; the fallback to all rows of the grade is
    taken only when the cell is empty.  Either way all rows are of the
    grade. *)
Theorem fig5b_rows_of_best_cell (df : DataFrame) (g : grade) :
  let best := best_pos (best_positions df g) in
  let cell := cell_rows (g_data df g) (fst best) (snd best) in
  fig5b_rows df g = (if (0 <? length cell)%nat then cell else g_data df g) /\
  (best_positions df g <> init -> cell <> [] /\ fig5b_rows df g = cell) /\
  Forall (fun row => Grade row = grade_num g) (fig5b_rows df g).
Proof.
  intros best cell.
  assert (E : fig5b_rows df g =
              (if (0 <? length cell)%nat then cell else g_data df g)).
  { unfold fig5b_rows. cbv zeta. fold best.
    rewrite (filter_and
               (fun r => (Grade r =? grade_num g)%Z && (PosX r =? fst best))
               (fun r => PosY r =? snd best)),
            (filter_and (fun r => (Grade r =? grade_num g)%Z)
               (fun r => PosX r =? fst best)).
    fold (g_data df g).
    rewrite <- (filter_and (fun r => PosX r =? fst best)
                  (fun r => PosY r =? snd best)).
    reflexivity. }
  split; [exact E|]. split.
  - intros Hsel.
    assert (Hc : cell <> []).
    { unfold best_positions in *.
      destruct (search_result_cases (g_data df g) (avg_abg (patient_freq_abg g)))
        as [H|(pre & post & _ & He & _ & Hlt)]; [contradiction|].
      intros Hnil. apply F64.ltb_true_not_nan in Hlt. destruct Hlt as [Hm _].
      rewrite He in Hm.
      rewrite (error_nan _ _ (best_pos
                 (search (g_data df g) (avg_abg (patient_freq_abg g))))) in Hm;
        [discriminate|].
      unfold sim_val. unfold cell, best, best_positions in Hnil.
      rewrite Hnil. reflexivity. }
    split; [exact Hc|]. rewrite E. destruct cell; [congruence|reflexivity].
  - rewrite E. apply Forall_forall. intros row Hrow.
    assert (Hg : In row (g_data df g)).
    { destruct (0 <? length cell)%nat; [|exact Hrow].
      unfold cell, cell_rows in Hrow. apply filter_In in Hrow. tauto. }
    unfold g_data in Hg. apply filter_In in Hg. now apply Z.eqb_eq.
Qed.

Lemma fig5b_rows_of_best_cell_witness :
  cell_rows (g_data scenario_rows G2) 1 1 <> [] /\
  fig5b_rows scenario_rows G2 = [mkRow 2 1.0 1.0 20].
Proof.
  destruct (fig5b_rows_of_best_cell scenario_rows G2) as (_ & H & _).
  apply H. intros E. apply (f_equal (fun b => fst (best_pos b) =? 1)) in E.
  vm_compute in E. discriminate.
Defined.

End Plot.

(** ** The parsed records as a whole, and the statistics over them *)

Module Records.

Import Py Parser.

Local Open Scope list_scope.

(** Line 187: [[p['avg_abg'] for p in all_patients
                if not np.isnan(p['avg_abg'])]] *)
Definition all_patient_abg (all_patients : list Patient) : list float :=
  map avg_abg (filter (fun p => negb (is_nan (avg_abg p))) all_patients).

(** The builtins [min] and [max] on a list: the first item, replaced by
    each later item that compares below (above) it. *)
Definition py_min (l : list float) : result float :=
  match l with
  | [] => raise ValueError
  | x :: l' => ret (fold_left (fun m item => if item <? m then item else m) l' x)
  end.

Definition py_max (l : list float) : result float :=
  match l with
  | [] => raise ValueError
  | x :: l' => ret (fold_left (fun m item => if m <? item then item else m) l' x)
  end.

(** Lines 192-194: what the header of the report computes. *)
Record Summary := mkSummary {
  total : nat;
  range_min : float;
  range_max : float;
  mean_abg : float
}.

Definition summary (all_patients : list Patient) : result Summary :=
  let abg := all_patient_abg all_patients in
  lo <- py_min abg ;;
  hi <- py_max abg ;;
  ret (mkSummary (length abg) lo hi (Np.mean abg)).

(** *** More on the order of binary64 numbers *)

Lemma leb_true_not_nan (x y : float) :
  (x <=? y) = true -> is_nan x = false /\ is_nan y = false.
Proof.
  rewrite leb_spec. unfold SFleb. intros H.
  rewrite !F64.is_nan_false_SF.
  split; intros E; rewrite E in H; simpl in H; try discriminate.
  destruct (Prim2SF x); discriminate.
Qed.

Lemma leb_refl (x : float) : is_nan x = false -> (x <=? x) = true.
Proof. intros H. apply F64.ltb_false_leb; auto using F64.ltb_irrefl. Qed.

Lemma ltb_leb (x y : float) : (x <? y) = true -> (x <=? y) = true.
Proof.
  intros H. destruct (F64.ltb_true_not_nan _ _ H).
  apply F64.ltb_false_leb; auto using F64.ltb_asym.
Qed.

Lemma leb_trans (x y z : float) :
  (x <=? y) = true -> (y <=? z) = true -> (x <=? z) = true.
Proof.
  intros H1 H2.
  destruct (leb_true_not_nan _ _ H1) as [Hx _].
  destruct (leb_true_not_nan _ _ H2) as [_ Hz].
  apply F64.ltb_false_leb; auto.
  destruct (z <? x) eqn:E; [|reflexivity].
  pose proof (F64.leb_ltb_trans _ _ _ H2 E) as H3.
  rewrite (F64.leb_ltb_false _ _ H1) in H3. discriminate.
Qed.

(** A sum or a quotient with an undefined operand is undefined. *)
Lemma is_nan_add_l (x y : float) : is_nan x = true -> is_nan (x + y) = true.
Proof.
  intros E. apply F64.Prim2SF_nan_iff. rewrite add_spec.
  apply F64.Prim2SF_nan_iff in E. now rewrite E.
Qed.

Lemma is_nan_add_r (x y : float) : is_nan y = true -> is_nan (x + y) = true.
Proof.
  intros E. apply F64.Prim2SF_nan_iff. rewrite add_spec.
  apply F64.Prim2SF_nan_iff in E. rewrite E. now destruct (Prim2SF x).
Qed.

Lemma is_nan_div_l (x y : float) : is_nan x = true -> is_nan (x / y) = true.
Proof.
  intros E. apply F64.Prim2SF_nan_iff. rewrite div_spec.
  apply F64.Prim2SF_nan_iff in E. now rewrite E.
Qed.

Lemma sum_from_nan (xs : list float) : forall acc,
  is_nan acc = true -> is_nan (fold_left add xs acc) = true.
Proof.
  induction xs as [|x xs IH]; intros acc H; [exact H|].
  simpl. apply IH. now apply is_nan_add_l.
Qed.

Lemma sum_with_nan (xs : list float) : forall acc,
  Exists (fun x => is_nan x = true) xs ->
  is_nan (fold_left add xs acc) = true.
Proof.
  induction xs as [|x xs IH]; intros acc H; inversion H; subst; simpl.
  - apply sum_from_nan. now apply is_nan_add_r.
  - now apply IH.
Qed.

Lemma mean_with_nan (xs : list float) :
  Exists (fun x => is_nan x = true) xs -> is_nan (Np.mean xs) = true.
Proof.
  intros H. unfold Np.mean, Pandas.sum.
  apply is_nan_div_l. now apply sum_with_nan.
Qed.

(** *** The least and the greatest of a list of numbers *)

Lemma fold_min_spec (l : list float) : forall m0,
  is_nan m0 = false -> Forall (fun y => is_nan y = false) l ->
  let m := fold_left (fun m item => if item <? m then item else m) l m0 in
  In m (m0 :: l) /\ (m <=? m0) = true /\
  Forall (fun y => (m <=? y) = true) l.
Proof.
  induction l as [|x l IH]; intros m0 H0 Hl; simpl.
  - split; [now left|]. split; [now apply leb_refl|constructor].
  - inversion Hl; subst.
    set (m1 := if x <? m0 then x else m0).
    assert (H1 : is_nan m1 = false) by (unfold m1; now destruct (x <? m0)).
    assert (L0 : (m1 <=? m0) = true).
    { unfold m1. destruct (x <? m0) eqn:E; [now apply ltb_leb|now apply leb_refl]. }
    assert (Lx : (m1 <=? x) = true).
    { unfold m1. destruct (x <? m0) eqn:E;
        [now apply leb_refl|now apply F64.ltb_false_leb]. }
    destruct (IH m1 H1 H3) as (Hin & Hle & Hall).
    split; [|split].
    + destruct Hin as [Hin|Hin]; [|now right; right].
      rewrite <- Hin. unfold m1. destruct (x <? m0); [right; now left|now left].
    + now apply leb_trans with m1.
    + constructor; [now apply leb_trans with m1|exact Hall].
Qed.

Lemma fold_max_spec (l : list float) : forall m0,
  is_nan m0 = false -> Forall (fun y => is_nan y = false) l ->
  let m := fold_left (fun m item => if m <? item then item else m) l m0 in
  In m (m0 :: l) /\ (m0 <=? m) = true /\
  Forall (fun y => (y <=? m) = true) l.
Proof.
  induction l as [|x l IH]; intros m0 H0 Hl; simpl.
  - split; [now left|]. split; [now apply leb_refl|constructor].
  - inversion Hl; subst.
    set (m1 := if m0 <? x then x else m0).
    assert (H1 : is_nan m1 = false) by (unfold m1; now destruct (m0 <? x)).
    assert (L0 : (m0 <=? m1) = true).
    { unfold m1. destruct (m0 <? x) eqn:E; [now apply ltb_leb|now apply leb_refl]. }
    assert (Lx : (x <=? m1) = true).
    { unfold m1. destruct (m0 <? x) eqn:E;
        [now apply leb_refl|now apply F64.ltb_false_leb]. }
    destruct (IH m1 H1 H3) as (Hin & Hle & Hall).
    split; [|split].
    + destruct Hin as [Hin|Hin]; [|now right; right].
      rewrite <- Hin. unfold m1. destruct (m0 <? x); [right; now left|now left].
    + now apply leb_trans with m1.
    + constructor; [now apply leb_trans with m1|exact Hall].
Qed.

Lemma all_patient_abg_numbers (all_patients : list Patient) :
  Forall (fun y => is_nan y = false) (all_patient_abg all_patients).
Proof.
  unfold all_patient_abg. apply Forall_map, Forall_forall.
  intros p Hp. apply filter_In in Hp. destruct Hp as [_ Hp].
  now apply negb_true_iff in Hp.
Qed.

(** X13. The header of the report raises [ValueError] exactly when no
    record has a defined mean gap.  Otherwise the two ends of the printed
    range are means of records, and every mean that is counted lies between
    them. *)
Theorem summary_range (all_patients : list Patient) :
  (all_patient_abg all_patients = [] ->
   summary all_patients = inl ValueError) /\
  (all_patient_abg all_patients <> [] ->
   exists s,
     summary all_patients = inr s /\
     total s = length (all_patient_abg all_patients) /\
     In (range_min s) (all_patient_abg all_patients) /\
     In (range_max s) (all_patient_abg all_patients) /\
     Forall (fun y => (range_min s <=? y) = true /\ (y <=? range_max s) = true)
       (all_patient_abg all_patients)).
Proof.
  unfold summary. cbv zeta.
  pose proof (all_patient_abg_numbers all_patients) as Hn.
  destruct (all_patient_abg all_patients) as [|x l] eqn:E.
  - split; [reflexivity|congruence].
  - split; [discriminate|]. intros _. inversion Hn; subst.
    destruct (fold_min_spec l x H1 H2) as (Hin1 & Hle1 & Hall1).
    destruct (fold_max_spec l x H1 H2) as (Hin2 & Hle2 & Hall2).
    eexists. split; [reflexivity|]. cbn [total range_min range_max].
    repeat split; auto.
    constructor; [now split|].
    rewrite Forall_forall in *. intros y Hy. split; auto.
Qed.

Lemma summary_range_witness :
  summary [] = inl ValueError /\
  exists s,
    summary [mkPatient (u "a_R") 25 [20; 30] [500; 1000];
             mkPatient (u "a_L") nan [nan] [500];
             mkPatient (u "b_R") 10 [10] [500]] = inr s /\
    total s = 2%nat.
Proof.
  destruct (summary_range []) as [H _].
  split; [now apply H|].
  destruct (summary_range
              [mkPatient (u "a_R") 25 [20; 30] [500; 1000];
               mkPatient (u "a_L") nan [nan] [500];
               mkPatient (u "b_R") 10 [10] [500]]) as [_ H'].
  destruct H' as (s & Hs & Ht & _); [discriminate|].
  exists s. split; [exact Hs|exact Ht].
Defined.

(** X14. When a gap of a side is undefined at one of its frequencies, the
    record is appended with an undefined mean, and line 187 leaves it out of
    the statistics over all patients. *)
Theorem undefined_gap_left_out (patient_id side : str) (bone air : dict)
    (all_patients : list Patient) :
  Exists (fun x => is_nan x = true) (common_abg bone air) ->
  exists p,
    side_record patient_id side bone air all_patients =
    inr (all_patients ++ [p]) /\
    is_nan (avg_abg p) = true /\
    all_patient_abg (all_patients ++ [p]) = all_patient_abg all_patients.
Proof.
  intros H. rewrite side_record_eq.
  assert (Ht : truthy (common_abg bone air) = true).
  { destruct (common_abg bone air); [inversion H|reflexivity]. }
  rewrite Ht. eexists. split; [reflexivity|]. cbn [avg_abg].
  pose proof (mean_with_nan _ H) as Hm. split; [exact Hm|].
  unfold all_patient_abg. rewrite filter_app. cbn [filter avg_abg].
  rewrite Hm. cbn [negb]. now rewrite app_nil_r.
Qed.

Lemma undefined_gap_left_out_witness :
  exists p,
    side_record (u "a") (u "L") [(0.5, 10)] [(0.5, nan)] [] = inr ([] ++ [p]) /\
    is_nan (avg_abg p) = true /\
    all_patient_abg ([] ++ [p]) = all_patient_abg [].
Proof.
  apply (undefined_gap_left_out (u "a") (u "L") [(0.5, 10)] [(0.5, nan)] []).
  apply Exists_cons_hd. reflexivity.
Defined.

(** *** Documents without patient blocks *)

Lemma drop_bars_spec (s : str) : exists k, s = repeat BAR k ++ drop_bars s.
Proof.
  induction s as [|c s IH]; [now exists O|]. cbn [drop_bars].
  destruct (N.eqb_spec c BAR) as [->|_]; [|now exists O].
  destruct IH as (k & Hk). exists (S k). cbn [repeat app]. now rewrite <- Hk.
Qed.

Lemma match_head_spec (s r : str) :
  match_head s = Some r -> exists k, s = repeat BAR (S k) ++ BLOCK_HEAD ++ r.
Proof.
  destruct s as [|c s]; [discriminate|]. unfold match_head.
  destruct (N.eqb_spec c BAR) as [->|_]; [|discriminate].
  intros H. apply strip_prefix_spec in H.
  destruct (drop_bars_spec s) as (k & Hk). exists k.
  cbn [repeat app]. rewrite Hk at 1. now rewrite H.
Qed.

(** What the regular expression matches: after the text before it, a run
    of rules and the opening of a patient block. *)
Lemma re_find_spec (s a r : str) :
  re_find s = Some (a, r) ->
  exists k, s = a ++ repeat BAR (S k) ++ BLOCK_HEAD ++ r.
Proof.
  revert a. induction s as [|c s IH]; intros a; cbn [re_find].
  - cbn [match_head]. discriminate.
  - destruct (match_head (c :: s)) as [r0|] eqn:E.
    + intros H. injection H as <- <-. now apply match_head_spec.
    + destruct (re_find s) as [[a0 r0]|]; [|discriminate].
      intros H. injection H as <- <-.
      destruct (IH a0 eq_refl) as (k & Hk). exists k.
      rewrite Hk at 1. reflexivity.
Qed.

Lemma re_split_no_match (s : str) : re_find s = None -> re_split s = [s].
Proof.
  intros H. unfold re_split. destruct (length s); simpl; now rewrite H.
Qed.

(** X7. A text in which no rule is followed by the opening of a patient
    block (the empty text, for one) gives no record, in the full parser and
    in the parse of a section. *)
Theorem no_block_no_record (float_of_str : str -> option float) (content : str) :
  contains (BAR :: BLOCK_HEAD) content = false ->
  load_all_patient_abg float_of_str content = inr [] /\
  parse_section float_of_str content = [].
Proof.
  intros H.
  assert (E : re_find content = None).
  { destruct (re_find content) as [[a r]|] eqn:E; [exfalso|reflexivity].
    apply re_find_spec in E. destruct E as (k & E).
    assert (C : contains (BAR :: BLOCK_HEAD) content = true).
    { replace content with ((a ++ repeat BAR k) ++ (BAR :: BLOCK_HEAD) ++ r);
        [apply contains_app|].
      rewrite E. cbn [repeat]. rewrite repeat_cons, <- !app_assoc.
      reflexivity. }
    congruence. }
  unfold load_all_patient_abg, parse_section.
  now rewrite (re_split_no_match content E).
Qed.

Lemma no_block_no_record_witness :
  load_all_patient_abg FloatText.float_of_str [] = inr [] /\
  parse_section FloatText.float_of_str [] = [].
Proof.
  apply (no_block_no_record FloatText.float_of_str []). reflexivity.
Defined.

(** *** The records of a document, block by block *)

Lemma for_sides_appends (fl : str -> option float)
    (ss : list (str * str * str)) (patient_id pre_op : str) :
  forall all_patients,
    fst (for_sides fl ss patient_id pre_op all_patients) =
    all_patients ++ fst (for_sides fl ss patient_id pre_op []).
Proof.
  induction ss as [|[[side pb] pa] ss IH]; intros st.
  - simpl. now rewrite app_nil_r.
  - cbn [for_sides]. destruct (read_side fl pre_op pb pa) as [bone air].
    rewrite !side_record_eq.
    destruct (truthy (common_abg bone air)).
    + rewrite IH. rewrite (IH ([] ++ _)). now rewrite <- app_assoc.
    + apply IH.
Qed.

Lemma for_sides_length (fl : str -> option float)
    (ss : list (str * str * str)) (patient_id pre_op : str) :
  forall all_patients,
    (length (fst (for_sides fl ss patient_id pre_op all_patients))
     <= length all_patients + length ss)%nat.
Proof.
  induction ss as [|[[side pb] pa] ss IH]; intros st; [simpl; lia|].
  cbn [for_sides]. destruct (read_side fl pre_op pb pa) as [bone air].
  rewrite side_record_eq.
  destruct (truthy (common_abg bone air)).
  - etransitivity; [apply IH|]. rewrite length_app. simpl. lia.
  - etransitivity; [apply IH|]. simpl. lia.
Qed.

Lemma try_block_appends (fl : str -> option float) (block : str)
    (all_patients : list Patient) :
  try_block fl all_patients block = all_patients ++ try_block fl [] block.
Proof.
  unfold try_block, block_body.
  destruct (block_head block) as [e|[[pid pre]|]].
  - cbn [fst]. now rewrite app_nil_r.
  - apply for_sides_appends.
  - cbn [fst]. now rewrite app_nil_r.
Qed.

Lemma blocks_concat (fl : str -> option float) (blocks : list str) :
  forall all_patients,
    fold_left (try_block fl) blocks all_patients =
    all_patients ++ concat (map (try_block fl []) blocks).
Proof.
  induction blocks as [|b blocks IH]; intros st; simpl.
  - now rewrite app_nil_r.
  - rewrite IH, try_block_appends. now rewrite <- app_assoc.
Qed.

(** X8. The records of a document are those of its blocks, one block after
    the other in the order of the text: what a block contributes does not
    depend on the blocks before it, and it is at most two records. *)
Theorem records_block_by_block (float_of_str : str -> option float)
    (content : str) :
  load_all_patient_abg float_of_str content =
  inr (concat (map (try_block float_of_str []) (tl (re_split content)))) /\
  (forall block all_patients,
     try_block float_of_str all_patients block =
     all_patients ++ try_block float_of_str [] block) /\
  (forall block, (length (try_block float_of_str [] block) <= 2)%nat).
Proof.
  split; [|split].
  - unfold load_all_patient_abg. now rewrite blocks_concat.
  - intros. apply try_block_appends.
  - intros block. unfold try_block, block_body.
    destruct (block_head block) as [e|[[pid pre]|]]; cbn [fst length]; try lia.
    apply (for_sides_length float_of_str sides pid pre []).
Qed.

(** *** What every record satisfies *)

Definition well_formed (p : Patient) : Prop :=
  abg_values p <> [] /\
  (length (abg_values p) <= 6)%nat /\
  length (freqs p) = length (abg_values p) /\
  avg_abg p = Np.mean (abg_values p) /\
  incl (freqs p) [250; 500; 1000; 2000; 3000; 4000].

Lemma common_length (bone air : dict) (fs : list float) :
  (length (common bone air fs) <= length fs)%nat.
Proof.
  induction fs as [|f fs IH]; simpl; [lia|].
  destruct (dict_get air f), (dict_get bone f); simpl; lia.
Qed.

Lemma common_fst (bone air : dict) (fs : list float) (p : float * float) :
  In p (common bone air fs) -> In (fst p) fs.
Proof.
  induction fs as [|f fs IH]; simpl; [tauto|].
  destruct (dict_get air f), (dict_get bone f); simpl; intros H;
    try (right; now apply IH).
  destruct H as [<-|H]; [now left|right; now apply IH].
Qed.

Lemma appended_well_formed (patient_id side : str) (bone air : dict) :
  truthy (common_abg bone air) = true ->
  well_formed
    (mkPatient (patient_id ++ u "_" ++ side) (Np.mean (common_abg bone air))
       (common_abg bone air) (common_freqs bone air)).
Proof.
  intros Ht. unfold well_formed. cbn [abg_values freqs avg_abg].
  split; [intros E; rewrite E in Ht; discriminate|].
  unfold common_abg, common_freqs. rewrite !length_map.
  split; [apply (common_length bone air canonical_freqs)|].
  split; [reflexivity|]. split; [reflexivity|].
  intros f Hf. apply in_map_iff in Hf. destruct Hf as (p & <- & Hp).
  apply common_fst in Hp.
  destruct Hp as [<-|[<-|[<-|[<-|[<-|[<-|[]]]]]]]; simpl; auto 10.
Qed.

Lemma for_sides_well_formed (fl : str -> option float)
    (ss : list (str * str * str)) (patient_id pre_op : str) :
  forall all_patients,
    Forall well_formed all_patients ->
    Forall well_formed (fst (for_sides fl ss patient_id pre_op all_patients)).
Proof.
  induction ss as [|[[side pb] pa] ss IH]; intros st H; [exact H|].
  cbn [for_sides]. destruct (read_side fl pre_op pb pa) as [bone air].
  rewrite side_record_eq.
  destruct (truthy (common_abg bone air)) eqn:Ht; apply IH; auto.
  apply Forall_app. split; [exact H|].
  constructor; [|constructor]. now apply appended_well_formed.
Qed.

(** X9. Every record the parser returns has between one and six gap
    values, as many frequencies, all among 250, 500, 1000, 2000, 3000 and
    4000 Hz, and as its mean the mean of its gap values. *)
Theorem records_well_formed (float_of_str : str -> option float)
    (content : str) (records : list Patient) :
  load_all_patient_abg float_of_str content = inr records ->
  Forall well_formed records.
Proof.
  unfold load_all_patient_abg. intros H. injection H as <-.
  generalize (tl (re_split content)) as blocks.
  assert (G : forall blocks st, Forall well_formed st ->
                Forall well_formed (fold_left (try_block float_of_str) blocks st)).
  { induction blocks as [|b blocks IH]; intros st Hst; [exact Hst|].
    simpl. apply IH. unfold try_block, block_body.
    destruct (block_head b) as [e|[[pid pre]|]]; cbn [fst]; auto.
    now apply for_sides_well_formed. }
  intros blocks. apply G. constructor.
Qed.

Lemma records_well_formed_witness :
  Forall well_formed [mkPatient (u "ICW1_R") 25.0 [20; 30] [500; 1000]].
Proof.
  apply (records_well_formed FloatText.float_of_str sample_document).
  vm_compute. reflexivity.
Defined.

(** *** Sides without a bone or an air line *)

(** X10. A side for which no line of the pre-operative section carries the
    bone label, or none carries the air label, gives no record; a block in
    which this holds for both sides leaves the records as they are. *)
Theorem side_without_label_skipped (float_of_str : str -> option float) :
  (forall pre_op prefix_b prefix_a patient_id side all_patients,
     filter (contains prefix_b) (split newline pre_op) = [] \/
     filter (contains prefix_a) (split newline pre_op) = [] ->
     side_record patient_id side
       (fst (read_side float_of_str pre_op prefix_b prefix_a))
       (snd (read_side float_of_str pre_op prefix_b prefix_a)) all_patients
     = inr all_patients) /\
  (forall block pre_op all_patients,
     pre_op_of block = Some pre_op ->
     (forall side prefix_b prefix_a, In (side, prefix_b, prefix_a) sides ->
        filter (contains prefix_b) (split newline pre_op) = [] \/
        filter (contains prefix_a) (split newline pre_op) = []) ->
     try_block float_of_str all_patients block = all_patients).
Proof.
  assert (S : forall pre_op prefix_b prefix_a patient_id side all_patients,
     filter (contains prefix_b) (split newline pre_op) = [] \/
     filter (contains prefix_a) (split newline pre_op) = [] ->
     side_record patient_id side
       (fst (read_side float_of_str pre_op prefix_b prefix_a))
       (snd (read_side float_of_str pre_op prefix_b prefix_a)) all_patients
     = inr all_patients).
  { intros pre pb pa pid side st H.
    rewrite side_record_eq, read_side_labels. cbn [fst snd].
    unfold common_abg.
    destruct H as [H|H];
      destruct (read_label_none float_of_str _ _ [] H) as [-> _].
    - now rewrite common_nil_l.
    - now rewrite common_nil_r. }
  split; [exact S|].
  intros block pre st Hpre H. unfold try_block, block_body.
  unfold pre_op_of in Hpre.
  destruct (block_head block) as [e|[[pid pre']|]]; try discriminate.
  injection Hpre as ->.
  assert (G : forall ss st,
             (forall side pb pa, In (side, pb, pa) ss ->
                filter (contains pb) (split newline pre) = [] \/
                filter (contains pa) (split newline pre) = []) ->
             fst (for_sides float_of_str ss pid pre st) = st).
  { induction ss as [|[[side pb] pa] ss IH]; intros st0 Hss; [reflexivity|].
    cbn [for_sides].
    pose proof (S pre pb pa pid side st0 (Hss side pb pa (or_introl eq_refl))) as E.
    destruct (read_side float_of_str pre pb pa) as [bone air].
    cbn [fst snd] in E. rewrite E. apply IH.
    intros s b a Hin. apply (Hss s). now right. }
  now apply G.
Qed.

Lemma side_without_label_skipped_witness :
  side_record (u "a") (u "L")
    (fst (read_side FloatText.float_of_str (u " R_B 1kHz=20dB") (u "L_B") (u "L_A")))
    (snd (read_side FloatText.float_of_str (u " R_B 1kHz=20dB") (u "L_B") (u "L_A")))
    [] = inr [].
Proof.
  destruct (side_without_label_skipped FloatText.float_of_str) as [H _].
  apply H. left. reflexivity.
Defined.

(** *** Tokens and the dictionary *)

Lemma dict_get_set_same (d : dict) (k v : float) :
  is_nan k = false -> dict_get (dict_set d k v) k = Some v.
Proof.
  intros Hk. induction d as [|[k' v'] d IH]; simpl.
  - now rewrite F64.eqb_refl.
  - destruct (k' =? k) eqn:E; simpl; rewrite E; auto.
Qed.

Lemma dict_get_set_other (d : dict) (k v q : float) :
  (k =? q) = false -> dict_get (dict_set d k v) q = dict_get d q.
Proof.
  intros Hq. induction d as [|[k' v'] d IH]; simpl.
  - now rewrite Hq.
  - destruct (k' =? k) eqn:E; simpl.
    + destruct (k' =? q) eqn:E'; [|reflexivity].
      rewrite F64.eqb_sym in E.
      rewrite (F64.eqb_trans _ _ _ E E') in Hq. discriminate.
    + destruct (k' =? q); auto.
Qed.

Lemma eqb_nan_l (k q : float) : is_nan k = true -> (k =? q) = false.
Proof.
  intros H. destruct (k =? q) eqn:E; [|reflexivity].
  apply F64.eqb_true_not_nan in E. destruct E; congruence.
Qed.

(** X11. After a well-formed token has been read, its frequency maps to
    its value, whatever stood there before, and every other frequency maps
    to what it did; a token whose frequency text denotes NaN changes no
    lookup at all. *)
Theorem token_stored (float_of_str : str -> option float)
    (part : str) (values : dict) (freq val : str) (k v : float) :
  token_freq part = inr freq -> token_value part = inr val ->
  val <> NAN -> float_of_str freq = Some k -> float_of_str val = Some v ->
  let values' := try_pass (parse_part float_of_str part values) values in
  (is_nan k = false -> dict_get values' k = Some v) /\
  (forall q, (k =? q) = false -> dict_get values' q = dict_get values q) /\
  (is_nan k = true -> forall q, dict_get values' q = dict_get values q).
Proof.
  intros Hf Hv Hn Hk Hx values'.
  assert (E : values' = dict_set values k v).
  { unfold values'. rewrite parse_part_tokens, Hf, Hv. cbn [bind].
    destruct (str_eqb val NAN) eqn:Eq.
    - apply str_eqb_eq in Eq. contradiction.
    - cbn [negb]. unfold py_float. now rewrite Hx, Hk. }
  rewrite E. split; [|split].
  - apply dict_get_set_same.
  - apply dict_get_set_other.
  - intros Hnan q. apply dict_get_set_other. now apply eqb_nan_l.
Qed.

Lemma token_stored_witness :
  dict_get
    (try_pass (parse_part FloatText.float_of_str (u " 1kHz=35dB ") bone_example)
       bone_example) 1 = Some 35.
Proof.
  assert (Hne : u "35" <> NAN).
  { intros E. vm_compute in E. discriminate. }
  exact (proj1 (token_stored FloatText.float_of_str (u " 1kHz=35dB ")
                  bone_example (u "1") (u "35") 1 35
                  eq_refl eq_refl Hne eq_refl eq_refl) eq_refl).
Defined.

(** *** The group mode *)

Lemma group_for_sides_ok (fl : str -> option float)
    (ss : list (str * str * str)) (pre_op : str) :
  forall patients, snd (group_for_sides fl ss pre_op patients) = None.
Proof.
  induction ss as [|[[side pb] pa] ss IH]; intros st; [reflexivity|].
  cbn [group_for_sides]. destruct (group_read_side fl pre_op pb pa) as [bone air].
  rewrite group_side_record_eq. apply IH.
Qed.

(** X12. [load_patient_by_group] raises nothing, whatever [float] does: it
    returns two lists for every text, and no exception ends the body of a
    block.  A text without the ICW heading gives no ICW record, one without
    the CWD heading no CWD record. *)
Theorem group_mode_never_raises (float_of_str : str -> option float) :
  (forall content, exists icw cwd,
     load_patient_by_group float_of_str content = inr (icw, cwd) /\
     (contains ICW content = false -> icw = []) /\
     (contains CWD content = false -> cwd = [])) /\
  (forall block patients,
     snd (group_block_body float_of_str block patients) = None).
Proof.
  split.
  - intros content. unfold load_patient_by_group, icw_section, cwd_section.
    destruct (contains ICW content) eqn:Ei, (contains CWD content) eqn:Ec.
    + destruct (item_split_1 ICW content ICW_nonempty Ei) as (p1 & ->).
      destruct (item_split_1 CWD content CWD_nonempty Ec) as (p2 & ->).
      cbn [bind]. destruct (item_split_0 CWD p1) as (p0 & ->). cbn [bind ret].
      eexists _, _. split; [reflexivity|]. split; discriminate.
    + destruct (item_split_1 ICW content ICW_nonempty Ei) as (p1 & ->).
      cbn [bind ret]. eexists _, _. split; [reflexivity|].
      split; [discriminate|reflexivity].
    + destruct (item_split_1 CWD content CWD_nonempty Ec) as (p2 & ->).
      cbn [bind ret]. eexists _, _. split; [reflexivity|].
      split; [reflexivity|discriminate].
    + cbn [bind ret]. eexists _, _. split; [reflexivity|]. split; reflexivity.
  - intros block st. unfold group_block_body.
    rewrite group_block_head_eq.
    destruct (block_head_ok block) as ([[pid pre]|] & ->);
      [apply group_for_sides_ok|reflexivity].
Qed.

End Records.
